(** * Battleship over a parity-checked byte link: a shallow embedding of
      [battleship.c] and the properties of its board store, link protocol
      and turn loop. *)

From stdpp Require Import base tactics option list strings gmap.
From Stdlib Require Import ZArith Lia Bool.

Local Open Scope Z_scope.

(** ** C integer types

    The program runs on a 32-bit target: [int] and [unsigned int] are 32 bits
    wide, [unsigned char] is 8 bits.  A value of one of these types is a [Z];
    every conversion the C code performs is written out with the functions
    below. *)

Module CInt.

Definition to_uchar (z : Z) : Z := z mod 256.
Definition to_schar (z : Z) : Z := (z + 128) mod 256 - 128.
Definition to_uint (z : Z) : Z := z mod 2 ^ 32.
Definition to_int (z : Z) : Z := (z + 2 ^ 31) mod 2 ^ 32 - 2 ^ 31.

(** Plain [char] is a signed 8-bit type for the compiler of the target. *)
Definition to_char (z : Z) : Z := to_schar z.

End CInt.
Import CInt.

(** ** Global constants *)

Definition bufLen : nat := 10.
Definition SMALL_SHIP_LENGTH : Z := 3.
Definition LARGE_SHIP_LENGTH : Z := 4.
Definition BOARD_WIDTH : Z := 8.   (* (unsigned int) 8 *)
Definition BOARD_HEIGHT : Z := 8.  (* (unsigned int) 8 *)
Definition shotsBase : Z := 0.
Definition hitsBase : Z := 8.
Definition boardBase : Z := 16.

(** ** Outcomes of a call

    [Undefined] is C undefined behaviour (a shift count outside the width of
    the shifted value, a store past the end of a buffer); [Blocked] is a call
    that waits for ever because the console or the link delivers nothing
    more; [OutOfFuel] is the model's own bound on a prompt loop. *)

Inductive result (A : Type) : Type :=
| Ok (a : A)
| Undefined
| Blocked
| OutOfFuel.
Arguments Ok {A} a.
Arguments Undefined {A}.
Arguments Blocked {A}.
Arguments OutOfFuel {A}.

(** ** Pure helpers of the program *)

(** [unsigned int charToInt(unsigned char c)]:
    [return c > '@' ? c - '@' : c - '0';] *)
Definition charToInt (c : Z) : Z :=
  let c := to_uchar c in
  to_uint (if 64 <? c then c - 64 else c - 48).

(** [int checkIndex(int x, int y)].  [BOARD_WIDTH] and [BOARD_HEIGHT] are
    [unsigned int], so the upper comparisons are unsigned. *)
Definition checkIndex (x y : Z) : Z :=
  let x := to_int x in
  let y := to_int y in
  if (0 <=? x) && (to_uint x <=? BOARD_WIDTH) &&
     (0 <=? y) && (to_uint y <=? BOARD_HEIGHT)
  then 0 else 1.

(** [unsigned char computeParity(char character)].  Each compound
    assignment computes in [int] and stores back into the [char]. *)
Definition computeParity (character : Z) : Z :=
  let character := to_char character in
  let character := to_char (Z.lxor character (Z.shiftr character 4)) in
  let character := to_char (Z.lxor character (Z.shiftr character 2)) in
  let character := to_char (Z.lxor character (Z.shiftr character 1)) in
  let character := to_char (Z.land character 1) in
  to_uchar character.

(** The same function for a compiler whose plain [char] is unsigned. *)
Definition computeParity_unsigned_char (character : Z) : Z :=
  let character := to_uchar character in
  let character := to_uchar (Z.lxor character (Z.shiftr character 4)) in
  let character := to_uchar (Z.lxor character (Z.shiftr character 2)) in
  let character := to_uchar (Z.lxor character (Z.shiftr character 1)) in
  let character := to_uchar (Z.land character 1) in
  to_uchar character.

(** [unsigned char createByte(int x)]: [unsigned char c = 1;
    return c << (BOARD_WIDTH - x);].  [c] is promoted to [int], the count is
    [unsigned int]; the shift is defined only while [1 * 2^count] fits an
    [int]. *)
Definition createByte (x : Z) : result Z :=
  let count := to_uint (BOARD_WIDTH - to_int x) in
  if count <? 31 then Ok (to_uchar (Z.shiftl 1 count)) else Undefined.

(** ** Program state

    The globals of the program, the external SRAM, and the two collaborators
    the program talks to: the console (characters still to be typed) and the
    link (frames still to arrive at [data_in]).  [trace] records, in order,
    the writes to the link registers and the console messages the
    properties below speak about; banners and board print-outs are not
    recorded. *)

Inductive event : Type :=
| WriteDataOut (frame : Z)
| WriteLoad (v : Z)
| WriteTransEn (v : Z)
| WriteCharRead (v : Z)
| PrintParityError (frame : Z)
| PrintOffMapOrTaken
| PrintEnemyHit
| PrintEnemyMissed
| PrintYouWin
| PrintYouLose.

Record state : Type := mkState {
  inputBuffer : list Z;
  outputBuffer : list Z;
  sent : Z;
  parity : Z;
  enemyHits : Z;
  yourHits : Z;
  yourShotX : Z;
  yourShotY : Z;
  theirShotX : Z;
  theirShotY : Z;
  sram : gmap Z Z;
  console : list Z;
  link_in : list Z;
  trace : list event
}.

Definition set_inputBuffer (v : list Z) (s : state) : state :=
  mkState v (outputBuffer s) (sent s) (parity s) (enemyHits s) (yourHits s)
    (yourShotX s) (yourShotY s) (theirShotX s) (theirShotY s) (sram s)
    (console s) (link_in s) (trace s).
Definition set_outputBuffer (v : list Z) (s : state) : state :=
  mkState (inputBuffer s) v (sent s) (parity s) (enemyHits s) (yourHits s)
    (yourShotX s) (yourShotY s) (theirShotX s) (theirShotY s) (sram s)
    (console s) (link_in s) (trace s).
Definition set_sent (v : Z) (s : state) : state :=
  mkState (inputBuffer s) (outputBuffer s) v (parity s) (enemyHits s) (yourHits s)
    (yourShotX s) (yourShotY s) (theirShotX s) (theirShotY s) (sram s)
    (console s) (link_in s) (trace s).
Definition set_parity (v : Z) (s : state) : state :=
  mkState (inputBuffer s) (outputBuffer s) (sent s) v (enemyHits s) (yourHits s)
    (yourShotX s) (yourShotY s) (theirShotX s) (theirShotY s) (sram s)
    (console s) (link_in s) (trace s).
Definition set_enemyHits (v : Z) (s : state) : state :=
  mkState (inputBuffer s) (outputBuffer s) (sent s) (parity s) v (yourHits s)
    (yourShotX s) (yourShotY s) (theirShotX s) (theirShotY s) (sram s)
    (console s) (link_in s) (trace s).
Definition set_yourHits (v : Z) (s : state) : state :=
  mkState (inputBuffer s) (outputBuffer s) (sent s) (parity s) (enemyHits s) v
    (yourShotX s) (yourShotY s) (theirShotX s) (theirShotY s) (sram s)
    (console s) (link_in s) (trace s).
Definition set_yourShot (x y : Z) (s : state) : state :=
  mkState (inputBuffer s) (outputBuffer s) (sent s) (parity s) (enemyHits s) (yourHits s)
    x y (theirShotX s) (theirShotY s) (sram s)
    (console s) (link_in s) (trace s).
Definition set_theirShot (x y : Z) (s : state) : state :=
  mkState (inputBuffer s) (outputBuffer s) (sent s) (parity s) (enemyHits s) (yourHits s)
    (yourShotX s) (yourShotY s) x y (sram s)
    (console s) (link_in s) (trace s).
Definition set_sram (v : gmap Z Z) (s : state) : state :=
  mkState (inputBuffer s) (outputBuffer s) (sent s) (parity s) (enemyHits s) (yourHits s)
    (yourShotX s) (yourShotY s) (theirShotX s) (theirShotY s) v
    (console s) (link_in s) (trace s).
Definition set_console (v : list Z) (s : state) : state :=
  mkState (inputBuffer s) (outputBuffer s) (sent s) (parity s) (enemyHits s) (yourHits s)
    (yourShotX s) (yourShotY s) (theirShotX s) (theirShotY s) (sram s)
    v (link_in s) (trace s).
Definition set_link_in (v : list Z) (s : state) : state :=
  mkState (inputBuffer s) (outputBuffer s) (sent s) (parity s) (enemyHits s) (yourHits s)
    (yourShotX s) (yourShotY s) (theirShotX s) (theirShotY s) (sram s)
    (console s) v (trace s).
Definition emit (es : list event) (s : state) : state :=
  mkState (inputBuffer s) (outputBuffer s) (sent s) (parity s) (enemyHits s) (yourHits s)
    (yourShotX s) (yourShotY s) (theirShotX s) (theirShotY s) (sram s)
    (console s) (link_in s) (trace s ++ es).

(** ** A state-and-outcome monad for the stateful functions *)

Definition M (A : Type) : Type := state -> result (A * state).

Definition ret {A} (a : A) : M A := fun s => Ok (a, s).
Definition bind {A B} (m : M A) (k : A -> M B) : M B :=
  fun s => match m s with
           | Ok (a, s') => k a s'
           | Undefined => Undefined
           | Blocked => Blocked
           | OutOfFuel => OutOfFuel
           end.
Definition undefined {A} : M A := fun _ => Undefined.
Definition blocked {A} : M A := fun _ => Blocked.
Definition out_of_fuel {A} : M A := fun _ => OutOfFuel.
Definition gets {A} (f : state -> A) : M A := fun s => Ok (f s, s).
Definition modify (f : state -> state) : M unit := fun s => Ok (tt, f s).
Definition lift {A} (r : result A) : M A :=
  fun s => match r with
           | Ok a => Ok (a, s)
           | Undefined => Undefined
           | Blocked => Blocked
           | OutOfFuel => OutOfFuel
           end.

Declare Scope prog_scope.
Delimit Scope prog_scope with prog.
Notation "'let!' x ':=' m 'in' k" := (bind m (fun x => k))
  (at level 10, x pattern, m at level 100, k at level 200) : prog_scope.
Local Open Scope prog_scope.

(** Array accesses: a store past the end of a buffer is undefined. *)
Definition load_buf (i : nat) (buf : list Z) : result Z :=
  match buf !! i with
  | Some v => Ok v
  | None => Undefined
  end.
Definition store_buf (i : nat) (v : Z) (buf : list Z) : result (list Z) :=
  if decide (i < length buf)%nat then Ok (<[i := v]> buf) else Undefined.

(** [alt_getchar()]: the next console character; waits when there is none. *)
Definition alt_getchar : M Z :=
  fun s => match console s with
           | [] => Blocked
           | c :: rest => Ok (c, set_console rest s)
           end.

(** ** Console input *)

(** [enterString()]: copy console characters into [outputBuffer] up to the
    newline, then store the terminator.  The loop is written by recursion on
    the characters still to come. *)
Fixpoint enterString_loop (input : list Z) (i : nat) (buf : list Z)
  : result (list Z * list Z) :=
  match input with
  | [] => Blocked
  | c :: rest =>
      let c := to_uchar c in
      if c =? 10 then
        match store_buf i 0 buf with
        | Ok buf' => Ok (buf', rest)
        | _ => Undefined
        end
      else
        match store_buf i c buf with
        | Ok buf' => enterString_loop rest (S i) buf'
        | _ => Undefined
        end
  end.

Definition enterString : M unit :=
  fun s => match enterString_loop (console s) 0 (outputBuffer s) with
           | Ok (buf, rest) => Ok (tt, set_console rest (set_outputBuffer buf s))
           | Undefined => Undefined
           | Blocked => Blocked
           | OutOfFuel => OutOfFuel
           end.

(** ** Byte link *)

(** [void sendChar(char c)].  [sent] and [parity] are [unsigned char]
    globals; [sent <<= 1] keeps the low 8 bits of the shifted value.  The
    wait for [char_sent] is taken to return: the peer acknowledges. *)
Definition sendChar (c : Z) : M unit :=
  fun s =>
    let sent0 := to_uchar (to_char c) in
    let parity1 := computeParity sent0 in
    let sent1 := to_uchar (Z.shiftl sent0 1) in
    let sent2 := to_uchar (parity1 + sent1) in
    Ok (tt, emit [WriteDataOut sent2; WriteLoad 1; WriteTransEn 1;
                  WriteLoad 0; WriteTransEn 0]
              (set_parity parity1 (set_sent sent2 s))).

(** [void sendString()]: the [for] loop over [i < bufLen], [n] being the
    number of iterations left. *)
Fixpoint sendString_loop (n : nat) (i : nat) : M unit :=
  match n with
  | O => ret tt
  | S n' =>
      let! c := (fun s => lift (load_buf i (outputBuffer s)) s) in
      let! _ := sendChar c in
      if c =? 0 then ret tt else sendString_loop n' (S i)
  end.

Definition sendString : M unit := sendString_loop bufLen 0.

(** [int readString()]: one round of the loop per frame that arrives; the
    polls that find [char_recv] low change nothing, and with no frame left
    the loop polls for ever. *)
Fixpoint readString_loop (frames : list Z) (i : nat) (s : state)
  : result (Z * state) :=
  match frames with
  | [] => Blocked
  | frame :: rest =>
      let received := to_uchar frame in
      let parity1 := to_uchar (Z.land received 1) in
      let received := to_uchar (Z.shiftr received 1) in
      let s := set_link_in rest (set_parity parity1 s) in
      if computeParity received =? parity1 then
        match store_buf i received (inputBuffer s) with
        | Ok buf =>
            let s := emit [WriteCharRead 1; WriteCharRead 0]
                       (set_inputBuffer buf s) in
            if received =? 0 then Ok (0, s) else readString_loop rest (S i) s
        | _ => Undefined
        end
      else
        Ok (1, emit [PrintParityError frame; WriteCharRead 1; WriteCharRead 0] s)
  end.

Definition readString : M Z := fun s => readString_loop (link_in s) 0 s.

(** The frames a run has put on [data_out], oldest first. *)
Fixpoint frames_sent (t : list event) : list Z :=
  match t with
  | [] => []
  | WriteDataOut f :: t' => f :: frames_sent t'
  | _ :: t' => frames_sent t'
  end.

(** The string a buffer holds: its bytes before the first terminator. *)
Fixpoint cstring (buf : list Z) : list Z :=
  match buf with
  | [] => []
  | c :: rest => if c =? 0 then [] else c :: cstring rest
  end.

(** ** Board store *)

(** [readSRAM]/[writeSRAM]: the address and the data go through [char]
    pointers, so the address latch and the data latch hold 8 bits.  A cell
    never written reads as whatever the map holds for it, 0 when absent. *)
Definition sram_address (addr : Z) : Z := to_uchar (to_int addr).

Definition readSRAM (addr : Z) : M Z :=
  fun s => Ok (to_uchar (default 0 (sram s !! sram_address addr)), s).

Definition writeSRAM (addr byte : Z) : M unit :=
  fun s => Ok (tt, set_sram (<[sram_address addr := to_uchar byte]> (sram s)) s).

(** [int checkMove(unsigned int x, unsigned int y, unsigned int boardAddr)].
    [byte] is promoted to [int]; a shift count of 32 or more is undefined. *)
Definition checkMove (x y boardAddr : Z) : M Z :=
  let x := to_uint x in
  let y := to_uint y in
  let boardAddr := to_uint boardAddr in
  let! byte := readSRAM (to_uint (boardAddr + to_uint (y - 1))) in
  let count := to_uint (BOARD_WIDTH - x) in
  if count <? 32
  then ret (to_int (Z.land (to_uchar (Z.shiftr byte count)) 1))
  else undefined.

Definition translateOutputBuffer : M unit :=
  fun s =>
    match load_buf 0 (outputBuffer s), load_buf 1 (outputBuffer s) with
    | Ok c0, Ok c1 => Ok (tt, set_yourShot (charToInt c1) (charToInt c0) s)
    | _, _ => Undefined
    end.

Definition translateInputBuffer : M unit :=
  fun s =>
    match load_buf 0 (inputBuffer s), load_buf 1 (inputBuffer s) with
    | Ok c0, Ok c1 => Ok (tt, set_theirShot (charToInt c1) (charToInt c0) s)
    | _, _ => Undefined
    end.

(** [void updateEnemyBoard(int board)] *)
Definition updateEnemyBoard (board : Z) : M unit :=
  let! y := gets yourShotY in
  let! x := gets yourShotX in
  let addr := to_uint (to_uint (y - 1) + to_uint (to_int board)) in
  let! row := readSRAM addr in
  let! mask := lift (createByte x) in
  let newRow := to_uchar (Z.lor row mask) in
  writeSRAM addr newRow.

(** [void updateYourBoard()] *)
Definition updateYourBoard : M unit :=
  let! y := gets theirShotY in
  let! x := gets theirShotX in
  let addr := to_uint (to_uint (boardBase + y) - 1) in
  let! byte := readSRAM addr in
  let count := to_uint (BOARD_WIDTH - x) in
  if count <? 32 then
    let hit := to_int (Z.land (Z.shiftr byte count) 1) in
    if hit =? 0 then
      let! _ := modify (emit [PrintEnemyMissed]) in
      modify (fun s => set_outputBuffer (<[1%nat := 0]> (<[0%nat := 48]> (outputBuffer s))) s)
    else
      let! _ := modify (emit [PrintEnemyHit]) in
      let! mask := lift (createByte x) in
      let! _ := writeSRAM addr (Z.land (Z.lnot mask) byte) in
      let! _ := modify (fun s => set_enemyHits (to_uint (enemyHits s + 1)) s) in
      modify (fun s => set_outputBuffer (<[1%nat := 0]> (<[0%nat := 49]> (outputBuffer s))) s)
  else undefined.

(** [void eraseSRAM()]: [for (i = 0; i < 30; i++) writeSRAM(i, 0);] *)
Fixpoint eraseSRAM_loop (n : nat) (i : Z) : M unit :=
  match n with
  | O => ret tt
  | S n' => let! _ := writeSRAM i 0 in eraseSRAM_loop n' (i + 1)
  end.

Definition eraseSRAM : M unit := eraseSRAM_loop 30 0.

(** [void setIndexHigh(int x, int y, int base)] *)
Definition setIndexHigh (x y base : Z) : M unit :=
  let addr := to_int (to_int (to_int base + to_int y) - 1) in
  let! byte := readSRAM addr in
  let! mask := lift (createByte x) in
  let byte := to_uchar (Z.lor mask byte) in
  writeSRAM addr byte.

(** ** Ship placement *)

(** The validity test both prompts use:
    [checkMove(x, y, base) || checkIndex(x, y)].  [||] evaluates its left
    operand first and the right one only when the left one is 0. *)
Definition checkMove_or_checkIndex (x y base : Z) : M Z :=
  let! taken := checkMove x y base in
  if taken =? 0
  then ret (if checkIndex x y =? 0 then 0 else 1)
  else ret 1.

(** The inner [do ... while (orientation != 'h' && orientation != 'v')]. *)
Fixpoint read_orientation (fuel : nat) : M Z :=
  match fuel with
  | O => out_of_fuel
  | S fuel' =>
      let! c := alt_getchar in
      let orientation := to_uchar c in
      let! _ := alt_getchar in
      if (orientation =? 104) || (orientation =? 118)
      then ret orientation
      else read_orientation fuel'
  end.

(** [for (j = i - 1; j >= 0; j--)] over the cells of the ship, [n] being
    [j + 1]; the result is the final value of [check]. *)
Fixpoint check_cells (orientation xCoor yCoor : Z) (n : nat) : M Z :=
  match n with
  | O => ret 0
  | S j =>
      let! check :=
        (if orientation =? 118
         then checkMove_or_checkIndex xCoor (yCoor + Z.of_nat j) boardBase
         else checkMove_or_checkIndex (xCoor + Z.of_nat j) yCoor boardBase) in
      if check =? 0
      then check_cells orientation xCoor yCoor j
      else let! _ := modify (emit [PrintOffMapOrTaken]) in ret check
  end.

Fixpoint mark_cells (orientation xCoor yCoor : Z) (n : nat) : M unit :=
  match n with
  | O => ret tt
  | S j =>
      let! _ :=
        (if orientation =? 118
         then setIndexHigh xCoor (yCoor + Z.of_nat j) boardBase
         else setIndexHigh (xCoor + Z.of_nat j) yCoor boardBase) in
      mark_cells orientation xCoor yCoor j
  end.

(** The outer [do ... while (check)] for the ship of length [i];
    [xCoor] and [yCoor] are [unsigned char]. *)
Fixpoint place_ship (fuel : nat) (i : Z) : M unit :=
  match fuel with
  | O => out_of_fuel
  | S fuel' =>
      let! c := alt_getchar in
      let yCoor := to_uchar (charToInt c) in
      let! c := alt_getchar in
      let xCoor := to_uchar (charToInt c) in
      let! _ := alt_getchar in
      let! orientation := read_orientation fuel in
      let! check := check_cells orientation xCoor yCoor (Z.to_nat i) in
      if check =? 0
      then mark_cells orientation xCoor yCoor (Z.to_nat i)
      else place_ship fuel' i
  end.

(** [for (i = LARGE_SHIP_LENGTH; i >= SMALL_SHIP_LENGTH; i--)] *)
Fixpoint setUpBoats_loop (fuel : nat) (n : nat) (i : Z) : M unit :=
  match n with
  | O => ret tt
  | S n' => let! _ := place_ship fuel i in setUpBoats_loop fuel n' (i - 1)
  end.

Definition setUpBoats (fuel : nat) : M unit :=
  setUpBoats_loop fuel
    (Z.to_nat (LARGE_SHIP_LENGTH - SMALL_SHIP_LENGTH + 1)) LARGE_SHIP_LENGTH.

(** ** The turn loop of [main] *)

(** [for (i = SMALL_SHIP_LENGTH; i <= LARGE_SHIP_LENGTH; i++) totalHits += i;] *)
Definition totalHits : Z :=
  foldl Z.add 0
    (seqZ SMALL_SHIP_LENGTH (LARGE_SHIP_LENGTH - SMALL_SHIP_LENGTH + 1)).

(** [while (notValidMove)]: prompt until a coordinate passes the test. *)
Fixpoint fire_prompt (fuel : nat) : M unit :=
  match fuel with
  | O => out_of_fuel
  | S fuel' =>
      let! _ := enterString in
      let! _ := translateOutputBuffer in
      let! x := gets yourShotX in
      let! y := gets yourShotY in
      let! notValidMove := checkMove_or_checkIndex x y shotsBase in
      if notValidMove =? 0 then ret tt else fire_prompt fuel'
  end.

(** The branch [if (yourTurn)]; the value [readString] returns is dropped,
    as in the source. *)
Definition local_turn (fuel : nat) : M unit :=
  let! _ := fire_prompt fuel in
  let! _ := sendString in
  let! _ := readString in
  let! _ := updateEnemyBoard shotsBase in
  let! _ := translateInputBuffer in
  let! c0 := (fun s => lift (load_buf 0 (inputBuffer s)) s) in
  if charToInt c0 =? 0 then ret tt
  else
    let! _ := updateEnemyBoard hitsBase in
    modify (fun s => set_yourHits (to_uint (yourHits s + 1)) s).

(** The [else] branch. *)
Definition remote_turn : M unit :=
  let! _ := readString in
  let! _ := translateInputBuffer in
  let! _ := updateYourBoard in
  sendString.

(** The loop condition, negated. *)
Definition game_over (s : state) : bool :=
  negb (negb (yourHits s =? to_uint totalHits) &&
        negb (enemyHits s =? to_uint totalHits)).

(** One round of the [while] body: the turn taken and the new [yourTurn]. *)
Definition turn (fuel : nat) (yourTurn : Z) : M Z :=
  if yourTurn =? 0
  then let! _ := remote_turn in ret 1
  else let! _ := local_turn fuel in ret 0.

Fixpoint main_loop (fuel : nat) (yourTurn : Z) : M unit :=
  match fuel with
  | O => out_of_fuel
  | S fuel' =>
      fun s =>
        if game_over s then Ok (tt, s)
        else (let! yourTurn' := turn fuel yourTurn in
              main_loop fuel' yourTurn') s
  end.

(** What [main] prints when the loop is left. *)
Definition report (s : state) : event :=
  if yourHits s =? to_uint totalHits then PrintYouWin else PrintYouLose.

(** [main] up to the turn loop: the store is erased, the ships are placed
    and the player number is read; the result is the first [yourTurn]. *)
Definition main_setup (fuel : nat) : M Z :=
  let! _ := modify (emit [WriteCharRead 1; WriteCharRead 0]) in
  let! _ := eraseSRAM in
  let! _ := setUpBoats fuel in
  let! c := alt_getchar in
  let player := to_int (charToInt c) in
  let yourTurn := to_int (2 - player) in
  let! _ := alt_getchar in
  ret yourTurn.

Definition main (fuel : nat) : M Z :=
  let! yourTurn := main_setup fuel in
  let! _ := main_loop fuel yourTurn in
  let! _ := modify (fun s => emit [report s] s) in
  ret 0.

(** The state the program starts in: zeroed globals, whatever the SRAM
    holds, the keys that will be typed and the frames that will arrive. *)
Definition initial_state (mem : gmap Z Z) (keys frames : list Z) : state :=
  mkState (replicate bufLen 0) (replicate bufLen 0) 0 0 0 0 0 0 0 0
    mem keys frames [].

(** The loop-head states of the turn loop that follow [start]. *)
Inductive loop_reachable (start : Z * state) : Z * state -> Prop :=
| reach_start : loop_reachable start start
| reach_turn fuel yourTurn s yourTurn' s' :
    loop_reachable start (yourTurn, s) ->
    game_over s = false ->
    turn fuel yourTurn s = Ok (yourTurn', s') ->
    loop_reachable start (yourTurn', s').

(** ** Board contents *)

(** The stored byte at an address, as [readSRAM] delivers it. *)
Definition byte_at (mem : gmap Z Z) (a : Z) : Z :=
  to_uchar (default 0 (mem !! a)).

(** The bit of cell (column [x], row [y]) in the board at [base]. *)
Definition cell (mem : gmap Z Z) (base x y : Z) : bool :=
  Z.testbit (byte_at mem (base + y - 1)) (BOARD_WIDTH - x).

(** Text of a key sequence, for the examples. *)
Definition keys (text : string) : list Z :=
  map (fun a => Z.of_N (Ascii.N_of_ascii a)) (String.list_ascii_of_string text).

Definition newline : string := String (Ascii.ascii_of_nat 10) EmptyString.

(** The parity of a byte: the exclusive or of its eight bits. *)
Definition parity_of_bits (b : Z) : bool :=
  foldr xorb false (map (Z.testbit b) (seqZ 0 8)).

(** A byte with bit [i] inverted. *)
Definition flip_bit (b i : Z) : Z := Z.lxor b (Z.shiftl 1 i).

(** [mem'] is [mem] with one bit of the byte at [a] set, and nothing else
    touched. *)
Definition sets_one_bit (mem mem' : gmap Z Z) (a bit : Z) : Prop :=
  (forall a', a' <> a -> mem' !! a' = mem !! a') /\
  byte_at mem' a = Z.lor (byte_at mem a) (2 ^ bit) /\
  Z.testbit (byte_at mem' a) bit = true /\
  (forall k, k <> bit -> Z.testbit (byte_at mem' a) k = Z.testbit (byte_at mem a) k).

(** [mem'] is [mem] with one bit of the byte at [a] cleared, and nothing
    else touched. *)
Definition clears_one_bit (mem mem' : gmap Z Z) (a bit : Z) : Prop :=
  (forall a', a' <> a -> mem' !! a' = mem !! a') /\
  Z.testbit (byte_at mem' a) bit = false /\
  (forall k, k <> bit -> Z.testbit (byte_at mem' a) k = Z.testbit (byte_at mem a) k).

(** ** The link, as the two ends see it *)

(** The frame [sendChar] puts on [data_out] for a character. *)
Definition frame_of (c : Z) : Z :=
  let sent0 := to_uchar (to_char c) in
  to_uchar (computeParity sent0 + to_uchar (Z.shiftl sent0 1)).

(** What [readString] takes out of a frame. *)
Definition frame_parity (frame : Z) : Z := to_uchar (Z.land (to_uchar frame) 1).
Definition frame_data (frame : Z) : Z := to_uchar (Z.shiftr (to_uchar frame) 1).
Definition parity_ok (frame : Z) : bool :=
  computeParity (frame_data frame) =? frame_parity frame.

Definition send_events (c : Z) : list event :=
  [WriteDataOut (frame_of c); WriteLoad 1; WriteTransEn 1;
   WriteLoad 0; WriteTransEn 0].

Definition ack_pulse : list event := [WriteCharRead 1; WriteCharRead 0].

Fixpoint ack_pulses (n : nat) : list event :=
  match n with
  | O => []
  | S n' => ack_pulse ++ ack_pulses n'
  end.

(** The frames put on [data_out] between two states of one run. *)
Definition frames_between (s s' : state) : list Z :=
  drop (length (frames_sent (trace s))) (frames_sent (trace s')).

(** The state after sending, [last] being the last character sent and [es]
    everything written to the link registers. *)
Definition after_send (last : Z) (es : list event) (s : state) : state :=
  emit es (set_parity (computeParity (to_uchar (to_char last)))
             (set_sent (frame_of last) s)).

(** [s'] differs from [s] at most in [inputBuffer], [parity], [link_in] and
    [trace]: the parts a reception may touch. *)
Definition reception_only (s s' : state) : Prop :=
  outputBuffer s' = outputBuffer s /\ sent s' = sent s /\
  enemyHits s' = enemyHits s /\ yourHits s' = yourHits s /\
  yourShotX s' = yourShotX s /\ yourShotY s' = yourShotY s /\
  theirShotX s' = theirShotX s /\ theirShotY s' = theirShotY s /\
  sram s' = sram s /\ console s' = console s /\
  length (inputBuffer s') = length (inputBuffer s).

(** The state after [readString] has taken a frame with the right parity:
    the data byte is stored at index [i] and the frame is acknowledged. *)
Definition after_frame (frame : Z) (rest : list Z) (i : nat) (s : state) : state :=
  emit ack_pulse
    (set_inputBuffer (<[i := frame_data frame]> (inputBuffer s))
       (set_link_in rest (set_parity (frame_parity frame) s))).

(** The state after [readString] has met a frame with the wrong parity. *)
Definition after_bad_frame (frame : Z) (rest : list Z) (s : state) : state :=
  emit (PrintParityError frame :: ack_pulse)
    (set_link_in rest (set_parity (frame_parity frame) s)).

(** A frame [readString] accepts and goes on after. *)
Definition good_frame (frame : Z) : Prop :=
  parity_ok frame = true /\ frame_data frame <> 0.

#[global] Instance event_eq_dec : EqDecision event.
Proof. solve_decision. Defined.

(** ** The hit counters *)

Definition same_counters (s s' : state) : Prop :=
  yourHits s' = yourHits s /\ enemyHits s' = enemyHits s.

(** A call that leaves both hit counters as they are. *)
Definition keeps_counters {A} (m : M A) : Prop :=
  forall s a s', m s = Ok (a, s') -> same_counters s s'.

(** Between [s] and [s'] at most one hit counter has moved, by one. *)
Definition counters_step (s s' : state) : Prop :=
  same_counters s s' \/
  (yourHits s' = to_uint (yourHits s + 1) /\ enemyHits s' = enemyHits s) \/
  (yourHits s' = yourHits s /\ enemyHits s' = to_uint (enemyHits s + 1)).

Definition steps_counters {A} (m : M A) : Prop :=
  forall s a s', m s = Ok (a, s') -> counters_step s s'.

(** The bounds the turn loop keeps. *)
Definition counters_bounded (s : state) : Prop :=
  0 <= yourHits s <= totalHits /\ 0 <= enemyHits s <= totalHits.

(** ** Scripts for the examples: what is typed and what arrives *)

Definition line (text : string) : list Z := keys (text +:+ newline).

Definition message (text : string) : list Z :=
  map frame_of (keys text) ++ [frame_of 0].

(** A whole game: two ships placed, the first move taken, seven shots that
    are all answered "1", six shots of the opponent in between. *)
Definition won_game_typed : list Z :=
  line "A1" ++ line "h" ++ line "B1" ++ line "h" ++ line "1" ++
  line "A1" ++ line "A2" ++ line "A3" ++ line "A4" ++
  line "B1" ++ line "B2" ++ line "B3".

Definition won_game_arriving : list Z :=
  message "1" ++ message "H8" ++ message "1" ++ message "H7" ++
  message "1" ++ message "H6" ++ message "1" ++ message "H5" ++
  message "1" ++ message "H4" ++ message "1" ++ message "H3" ++
  message "1".

(** The cell [j] of a ship laid from (column [x], row [y]):
    down for 'v', right otherwise. *)
Definition ship_cell (orientation x y j : Z) : Z * Z :=
  if orientation =? 118 then (x, y + j) else (x + j, y).

(** [s'] differs from [s] at most in [sent], [parity] and [trace]: the
    parts a transmission may touch. *)
Definition sending_only (s s' : state) : Prop :=
  inputBuffer s' = inputBuffer s /\ outputBuffer s' = outputBuffer s /\
  enemyHits s' = enemyHits s /\ yourHits s' = yourHits s /\
  yourShotX s' = yourShotX s /\ yourShotY s' = yourShotY s /\
  theirShotX s' = theirShotX s /\ theirShotY s' = theirShotY s /\
  sram s' = sram s /\ console s' = console s /\ link_in s' = link_in s.

(** Every confirmed hit is a shot fired, over the cells of the board. *)
Definition hits_within_shots (mem : gmap Z Z) : Prop :=
  forall x y, 1 <= x <= 8 -> 1 <= y <= 8 ->
    cell mem hitsBase x y = true -> cell mem shotsBase x y = true.

(** ** Board print-outs

    The two print functions only read the store and write to the console;
    each is modelled as a call that returns the characters it writes. *)

(** The inner [for (ishift = 7; ishift >= 0; ishift--)] of [printYourBoard],
    [n] being [ishift + 1]. *)
Fixpoint printYourBoard_bits (byteBoard : Z) (n : nat) : list Z :=
  match n with
  | O => []
  | S ishift =>
      let bitBoard := to_int (Z.land (Z.shiftr byteBoard (Z.of_nat ishift)) 1) in
      (if bitBoard =? 0 then 45 else 66) :: 32 :: printYourBoard_bits byteBoard ishift
  end.

(** [while (iboard < boardBase + 8)], [n] being the rows still to print. *)
Fixpoint printYourBoard_rows (n : nat) (iboard : Z) : M (list Z) :=
  match n with
  | O => ret []
  | S n' =>
      let label := to_uchar (to_uint (65 + iboard - boardBase)) in
      let! byteBoard := readSRAM iboard in
      let! below := printYourBoard_rows n' (iboard + 1) in
      ret ([label; 32] ++ printYourBoard_bits byteBoard 8 ++ [10] ++ below)
  end.

(** [void printYourBoard()] *)
Definition printYourBoard : M (list Z) :=
  let! rows := printYourBoard_rows 8 boardBase in
  ret (keys "Your fleet..." ++ [10] ++
       keys "  1 2 3 4 5 6 7 8" ++ [10] ++ rows ++ [10]).

(** The inner loop of [printEnemyBoard]. *)
Fixpoint printEnemyBoard_bits (byteShot byteHit : Z) (n : nat) : list Z :=
  match n with
  | O => []
  | S ishift =>
      let bitShot := to_int (Z.land (Z.shiftr byteShot (Z.of_nat ishift)) 1) in
      let bitHit := to_int (Z.land (Z.shiftr byteHit (Z.of_nat ishift)) 1) in
      (if negb (Z.land bitShot bitHit =? 0) then 88
       else if negb (bitShot =? 0) then 79 else 45)
        :: 32 :: printEnemyBoard_bits byteShot byteHit ishift
  end.

(** [while (ishot < shotsBase + 8)] *)
Fixpoint printEnemyBoard_rows (n : nat) (ishot ihit : Z) : M (list Z) :=
  match n with
  | O => ret []
  | S n' =>
      let label := to_uchar (to_uint (65 + ishot - shotsBase)) in
      let! byteShot := readSRAM ishot in
      let! byteHit := readSRAM ihit in
      let! below := printEnemyBoard_rows n' (ishot + 1) (ihit + 1) in
      ret ([label; 32] ++ printEnemyBoard_bits byteShot byteHit 8 ++ [10] ++ below)
  end.

(** [void printEnemyBoard()] *)
Definition printEnemyBoard : M (list Z) :=
  let! rows := printEnemyBoard_rows 8 shotsBase hitsBase in
  ret (keys "Current assessment of enemy territory..." ++ [10] ++
       keys "  1 2 3 4 5 6 7 8" ++ [10] ++ rows ++ [10]).

(** A printed grid: for each row 1..8 its letter, then one mark and a blank
    for each column 1..8, then a newline. *)
Definition grid_row (mark : Z -> Z) (y : Z) : list Z :=
  [64 + y; 32] ++ flat_map (fun x => [mark x; 32]) (seqZ 1 8) ++ [10].

Definition grid (mark : Z -> Z -> Z) : list Z :=
  flat_map (fun y => grid_row (fun x => mark x y) y) (seqZ 1 8).

(** 'B' for a ship cell, '-' for water. *)
Definition fleet_mark (mem : gmap Z Z) (x y : Z) : Z :=
  if cell mem boardBase x y then 66 else 45.

(** 'X' for a shot that hit, 'O' for any other shot, '-' for a cell not
    fired at. *)
Definition enemy_mark (mem : gmap Z Z) (x y : Z) : Z :=
  if cell mem shotsBase x y && cell mem hitsBase x y then 88
  else if cell mem shotsBase x y then 79 else 45.


(** [void printInput()]: the characters put on the console.  The loop is
    written by recursion on the part of [inputBuffer] from index [i] on; a
    read past the end of the array is undefined. *)
Fixpoint printInput_loop (buf : list Z) : result (list Z) :=
  match buf with
  | [] => Undefined
  | c :: rest =>
      if c =? 0 then Ok [10]
      else match printInput_loop rest with
           | Ok out => Ok (c :: out)
           | Undefined => Undefined
           | Blocked => Blocked
           | OutOfFuel => OutOfFuel
           end
  end.

Definition printInput : M (list Z) :=
  fun s => match printInput_loop (inputBuffer s) with
           | Ok out => Ok (out, s)
           | Undefined => Undefined
           | Blocked => Blocked
           | OutOfFuel => OutOfFuel
           end.

(** [m'] returns whatever [m] returns: the order in which a run with more
    fuel stands to one with less. *)
Definition ok_le {A} (m m' : M A) : Prop :=
  forall s r, m s = Ok r -> m' s = Ok r.

(** The verdict [main] prints for the state the loop is left in. *)
Definition verdict (s : state) : event :=
  if decide (yourHits s = totalHits) then PrintYouWin else PrintYouLose.

(** * Properties *)

(** ** Integer conversions *)

Lemma to_uchar_range z : 0 <= to_uchar z < 256.
Proof. unfold to_uchar. apply Z.mod_pos_bound. lia. Qed.

Lemma to_uchar_small z : 0 <= z < 256 -> to_uchar z = z.
Proof. intros H. unfold to_uchar. apply Z.mod_small. exact H. Qed.

Lemma to_uint_range z : 0 <= to_uint z < 2 ^ 32.
Proof. unfold to_uint. apply Z.mod_pos_bound. lia. Qed.

Lemma to_uint_small z : 0 <= z < 2 ^ 32 -> to_uint z = z.
Proof. intros H. unfold to_uint. apply Z.mod_small. exact H. Qed.

Lemma to_int_small z : - 2 ^ 31 <= z < 2 ^ 31 -> to_int z = z.
Proof. intros H. unfold to_int. rewrite Z.mod_small; lia. Qed.

Lemma to_uchar_testbit z k : 0 <= k < 8 -> Z.testbit (to_uchar z) k = Z.testbit z k.
Proof.
  intros Hk. unfold to_uchar. change 256 with (2 ^ 8).
  apply Z.mod_pow2_bits_low. lia.
Qed.

Lemma to_uchar_testbit_high z k : 8 <= k -> Z.testbit (to_uchar z) k = false.
Proof.
  intros Hk. unfold to_uchar. change 256 with (2 ^ 8).
  apply Z.mod_pow2_bits_high. lia.
Qed.

(** A finite check over an interval of integers, run by evaluation. *)
Lemma Forall_seqZ_elim (P : Z -> Prop) (lo len x : Z) :
  Forall P (seqZ lo len) -> lo <= x < lo + len -> P x.
Proof.
  intros HP Hx. rewrite Forall_forall in HP. apply HP.
  apply elem_of_seqZ. exact Hx.
Qed.

(** ** The bounds check *)

(** What [checkIndex] accepts: both components in 0..8. *)
Lemma checkIndex_spec (x y : Z) :
  - 2 ^ 31 <= x < 2 ^ 31 -> - 2 ^ 31 <= y < 2 ^ 31 ->
  (checkIndex x y = 0 <-> 0 <= x <= 8 /\ 0 <= y <= 8).
Proof.
  intros Hx Hy. unfold checkIndex, BOARD_WIDTH, BOARD_HEIGHT.
  rewrite !to_int_small by assumption.
  destruct (Z.leb_spec 0 x) as [Hx0|Hx0]; cbn [andb].
  2: { split; [discriminate | lia]. }
  destruct (Z.leb_spec 0 y) as [Hy0|Hy0].
  2: { rewrite andb_false_r. cbn [andb]. split; [discriminate | lia]. }
  rewrite !to_uint_small by lia.
  destruct (Z.leb_spec x 8), (Z.leb_spec y 8); cbn [andb];
    split; try discriminate; try lia; reflexivity.
Qed.

Lemma checkIndex_0_or_1 (x y : Z) : checkIndex x y = 0 \/ checkIndex x y = 1.
Proof. unfold checkIndex. case (_ && _); auto. Qed.

(** C2 (the code departs from the claim): [checkIndex] returns 0 for a
    column or a row equal to 0, which is outside 1..8; typing "A0" at the
    firing prompt is taken as a valid move on the first prompt, with no
    re-prompt. *)
Theorem checkIndex_accepts_zero :
  checkIndex 0 1 = 0 /\ checkIndex 1 0 = 0 /\
  exists s',
    fire_prompt 1 (initial_state ∅ (keys ("A0" +:+ newline)) []) = Ok (tt, s') /\
    yourShotX s' = 0 /\ yourShotY s' = 1 /\ console s' = [].
Proof.
  split; [reflexivity|]. split; [reflexivity|].
  eexists. split; [vm_compute; reflexivity|].
  repeat split; reflexivity.
Qed.

(** ** Parity *)

Lemma computeParity_table :
  Forall (fun b => computeParity b = Z.b2z (parity_of_bits b)) (seqZ 0 256).
Proof. apply (bool_decide_unpack _). vm_compute. exact I. Qed.

(** [computeParity] is the exclusive or of the eight bits of the byte. *)
Lemma computeParity_xor_fold (b : Z) :
  0 <= b < 256 -> computeParity b = Z.b2z (parity_of_bits b).
Proof.
  intros Hb. apply (Forall_seqZ_elim _ 0 256 b computeParity_table). lia.
Qed.

Lemma computeParity_signedness_table :
  Forall (fun b => computeParity_unsigned_char b = computeParity b) (seqZ 0 256).
Proof. apply (bool_decide_unpack _). vm_compute. exact I. Qed.

(** The signedness of plain [char] does not change the result. *)
Lemma computeParity_signedness (b : Z) :
  0 <= b < 256 -> computeParity_unsigned_char b = computeParity b.
Proof.
  intros Hb. apply (Forall_seqZ_elim _ 0 256 b computeParity_signedness_table). lia.
Qed.

Lemma computeParity_0_or_1 (b : Z) :
  0 <= b < 256 -> computeParity b = 0 \/ computeParity b = 1.
Proof.
  intros Hb. rewrite computeParity_xor_fold by exact Hb.
  destruct (parity_of_bits b); auto.
Qed.

Lemma flip_bit_testbit (b i k : Z) :
  0 <= i -> 0 <= k ->
  Z.testbit (flip_bit b i) k = xorb (Z.testbit b k) (bool_decide (i = k)).
Proof.
  intros Hi Hk. unfold flip_bit.
  rewrite Z.lxor_spec, Z.shiftl_1_l, Z.pow2_bits_eqb by lia.
  f_equal. case_bool_decide as Hik.
  - apply Z.eqb_eq. exact Hik.
  - apply Z.eqb_neq. exact Hik.
Qed.

Lemma flip_bit_range (b i : Z) :
  0 <= b < 256 -> 0 <= i < 8 -> 0 <= flip_bit b i < 256.
Proof.
  intros Hb Hi. unfold flip_bit. rewrite Z.shiftl_1_l.
  assert (H1 : 0 <= 2 ^ i) by (apply Z.pow_nonneg; lia).
  split.
  - apply Z.lxor_nonneg. lia.
  - destruct (Z.eq_dec (Z.lxor b (2 ^ i)) 0) as [->|Hne]; [lia|].
    assert (Hnn : 0 <= Z.lxor b (2 ^ i)) by (apply Z.lxor_nonneg; lia).
    change 256 with (2 ^ 8). apply Z.log2_lt_pow2; [lia|].
    eapply Z.le_lt_trans; [apply Z.log2_lxor; lia|].
    apply Z.max_lub_lt.
    + destruct (Z.eq_dec b 0) as [->|Hb0]; [cbn; lia|].
      apply Z.log2_lt_pow2; lia.
    + rewrite Z.log2_pow2; lia.
Qed.

(** Inverting one of the eight bits inverts the exclusive or of all. *)
Lemma parity_of_bits_flip (b i : Z) :
  0 <= i < 8 -> parity_of_bits (flip_bit b i) = negb (parity_of_bits b).
Proof.
  intros Hi. unfold parity_of_bits. cbn [seqZ].
  change (seqZ 0 8) with [0; 1; 2; 3; 4; 5; 6; 7].
  cbn [map foldr].
  rewrite !flip_bit_testbit by lia.
  assert (Hcases : i = 0 \/ i = 1 \/ i = 2 \/ i = 3 \/
                   i = 4 \/ i = 5 \/ i = 6 \/ i = 7) by lia.
  destruct Hcases as [->|[->|[->|[->|[->|[->|[->| ->]]]]]]];
    cbn [bool_decide decide_rel]; rewrite ?bool_decide_eq_true_2 by reflexivity;
    repeat (rewrite bool_decide_eq_false_2 by lia);
    repeat match goal with |- context [Z.testbit b ?k] => destruct (Z.testbit b k) end;
    reflexivity.
Qed.

(** C5: for every byte [b] and every bit position [i] in 0..7, the parity
    computed for [b] with bit [i] flipped differs from the parity computed
    for [b]: a corruption of one bit is always detected. *)
Theorem computeParity_detects_single_bit_flip (b i : Z) :
  0 <= b < 256 -> 0 <= i < 8 ->
  computeParity (flip_bit b i) <> computeParity b.
Proof.
  intros Hb Hi.
  rewrite (computeParity_xor_fold (flip_bit b i)) by (apply flip_bit_range; assumption).
  rewrite (computeParity_xor_fold b) by exact Hb.
  rewrite parity_of_bits_flip by exact Hi.
  destruct (parity_of_bits b); discriminate.
Qed.

Lemma computeParity_detects_single_bit_flip_witness :
  0 <= 65 < 256 /\ 0 <= 3 < 8 /\
  computeParity (flip_bit 65 3) <> computeParity 65.
Proof.
  split; [lia|]. split; [lia|].
  apply (computeParity_detects_single_bit_flip 65 3); lia.
Defined.

(** Closed goals about runs of the program are settled by evaluation. *)
Ltac run := vm_compute; reflexivity.
Ltac runs := repeat (split; [run|]); try run.

(** ** Reasoning about calls *)

Lemma bind_Ok {A B} (m : M A) (k : A -> M B) s b s'' :
  bind m k s = Ok (b, s'') ->
  exists a s', m s = Ok (a, s') /\ k a s' = Ok (b, s'').
Proof.
  unfold bind. destruct (m s) as [[a s']| | |]; try discriminate.
  intros H. exists a, s'. split; [reflexivity | exact H].
Qed.

Lemma bind_of_Ok {A B} (m : M A) (k : A -> M B) s a s' :
  m s = Ok (a, s') -> bind m k s = k a s'.
Proof. intros H. unfold bind. rewrite H. reflexivity. Qed.

(** Splits a hypothesis [bind m k s = Ok _] into the two calls, with fresh
    names or with the names given for the intermediate result and state. *)
Tactic Notation "bind_inv" hyp(H) :=
  let a := fresh "a" in
  let s := fresh "s" in
  let H1 := fresh H "_l" in
  apply bind_Ok in H; destruct H as (a & s & H1 & H).

Tactic Notation "bind_inv" hyp(H) "as" simple_intropattern(a) ident(s) ident(H1) :=
  apply bind_Ok in H; destruct H as (a & s & H1 & H).

(** ** Bit operations on bytes *)

Lemma land_1_b2z (z : Z) : Z.land z 1 = Z.b2z (Z.testbit z 0).
Proof.
  change 1 with (Z.ones 1) at 1. rewrite Z.land_ones by lia.
  rewrite Z.bit0_mod. reflexivity.
Qed.

Lemma byte_testbit_high (z k : Z) : 0 <= z < 256 -> 8 <= k -> Z.testbit z k = false.
Proof.
  intros Hz Hk. rewrite <- (to_uchar_small z Hz). apply to_uchar_testbit_high, Hk.
Qed.

Lemma to_uchar_lor (a b : Z) :
  0 <= a < 256 -> 0 <= b < 256 -> to_uchar (Z.lor a b) = Z.lor a b.
Proof.
  intros Ha Hb. apply Z.bits_inj'. intros k Hk.
  destruct (Z.lt_ge_cases k 8) as [Hlt|Hge].
  - apply to_uchar_testbit. lia.
  - rewrite to_uchar_testbit_high by exact Hge.
    rewrite Z.lor_spec, !byte_testbit_high by assumption. reflexivity.
Qed.

Lemma to_uchar_land_r (a b : Z) :
  0 <= b < 256 -> to_uchar (Z.land a b) = Z.land a b.
Proof.
  intros Hb. apply Z.bits_inj'. intros k Hk.
  destruct (Z.lt_ge_cases k 8) as [Hlt|Hge].
  - apply to_uchar_testbit. lia.
  - rewrite to_uchar_testbit_high by exact Hge.
    rewrite Z.land_spec, (byte_testbit_high b) by assumption.
    rewrite andb_false_r. reflexivity.
Qed.

Lemma pow2_byte (n : Z) : 0 <= n <= 7 -> 0 <= 2 ^ n < 256.
Proof.
  intros Hn. split; [apply Z.pow_nonneg; lia|].
  change 256 with (2 ^ 8). apply Z.pow_lt_mono_r; lia.
Qed.

Lemma byte_at_range mem a : 0 <= byte_at mem a < 256.
Proof. apply to_uchar_range. Qed.

(** ** The codec on coordinates inside the board *)

Lemma createByte_in_board (x : Z) :
  1 <= x <= 8 -> createByte x = Ok (2 ^ (8 - x)).
Proof.
  intros Hx. unfold createByte, BOARD_WIDTH.
  rewrite to_int_small by lia. rewrite to_uint_small by lia.
  destruct (Z.ltb_spec (8 - x) 31); [|lia].
  rewrite Z.shiftl_1_l. rewrite to_uchar_small by (apply pow2_byte; lia).
  reflexivity.
Qed.

Lemma sram_address_small (a : Z) : 0 <= a < 256 -> sram_address a = a.
Proof.
  intros Ha. unfold sram_address. rewrite to_int_small by lia.
  apply to_uchar_small, Ha.
Qed.

Lemma readSRAM_byte_at (a : Z) (s : state) :
  0 <= a < 256 -> readSRAM a s = Ok (byte_at (sram s) a, s).
Proof.
  intros Ha. unfold readSRAM, byte_at. rewrite sram_address_small by exact Ha.
  reflexivity.
Qed.

(** [checkMove] reads the bit of the cell: the row picks the byte, the column
    picks the bit, column 1 being the most significant one. *)
Lemma checkMove_cell (x y base : Z) (s : state) :
  1 <= x <= 8 -> 1 <= y -> 0 <= base -> base + y <= 256 ->
  checkMove x y base s = Ok (Z.b2z (cell (sram s) base x y), s).
Proof.
  intros Hx Hy Hb Hlim. unfold checkMove, cell, BOARD_WIDTH.
  rewrite (to_uint_small x), (to_uint_small y), (to_uint_small base) by lia.
  rewrite (to_uint_small (y - 1)) by lia.
  rewrite (to_uint_small (base + (y - 1))) by lia.
  rewrite (to_uint_small (8 - x)) by lia.
  erewrite bind_of_Ok by (apply readSRAM_byte_at; lia).
  destruct (Z.ltb_spec (8 - x) 32); [|lia].
  unfold ret. do 2 f_equal.
  replace (base + (y - 1)) with (base + y - 1) by lia.
  set (byte := byte_at (sram s) (base + y - 1)).
  rewrite land_1_b2z, to_uchar_testbit by lia.
  rewrite Z.shiftr_spec by lia. rewrite Z.add_0_l.
  destruct (Z.testbit byte (8 - x)); reflexivity.
Qed.

(** ** Frame of the board updates *)

Lemma byte_at_insert_eq mem a v : byte_at (<[a := v]> mem) a = to_uchar v.
Proof. unfold byte_at. rewrite lookup_insert_eq. reflexivity. Qed.

Lemma insert_sets_one_bit (mem : gmap Z Z) (a bit : Z) :
  0 <= bit <= 7 ->
  sets_one_bit mem (<[a := Z.lor (byte_at mem a) (2 ^ bit)]> mem) a bit.
Proof.
  intros Hbit. unfold sets_one_bit. rewrite byte_at_insert_eq.
  rewrite to_uchar_lor by (apply byte_at_range || apply pow2_byte; exact Hbit).
  split; [|split; [|split]].
  - intros a' Hne. apply lookup_insert_ne. congruence.
  - reflexivity.
  - rewrite Z.lor_spec, Z.pow2_bits_true by lia. apply orb_true_r.
  - intros k Hk. rewrite Z.lor_spec, Z.pow2_bits_false by lia. apply orb_false_r.
Qed.

Lemma insert_clears_one_bit (mem : gmap Z Z) (a bit : Z) :
  0 <= bit <= 7 ->
  clears_one_bit mem
    (<[a := Z.land (Z.lnot (2 ^ bit)) (byte_at mem a)]> mem) a bit.
Proof.
  intros Hbit. unfold clears_one_bit. rewrite byte_at_insert_eq.
  rewrite to_uchar_land_r by apply byte_at_range.
  split; [|split].
  - intros a' Hne. apply lookup_insert_ne. congruence.
  - rewrite Z.land_spec, Z.lnot_spec, Z.pow2_bits_true by lia. reflexivity.
  - intros k Hk. destruct (Z.neg_nonneg_cases k) as [Hneg|Hnn].
    + rewrite !Z.testbit_neg_r by exact Hneg. reflexivity.
    + rewrite Z.land_spec, Z.lnot_spec, Z.pow2_bits_false by lia. reflexivity.
Qed.

Lemma setIndexHigh_store (x y base : Z) (s : state) :
  1 <= x <= 8 -> 1 <= y <= 8 -> 0 <= base <= 248 ->
  setIndexHigh x y base s =
    Ok (tt, set_sram (<[base + y - 1 :=
                         Z.lor (byte_at (sram s) (base + y - 1)) (2 ^ (8 - x))]>
                        (sram s)) s).
Proof.
  intros Hx Hy Hb. unfold setIndexHigh.
  rewrite (to_int_small base), (to_int_small y) by lia.
  rewrite (to_int_small (base + y)) by lia.
  rewrite (to_int_small (base + y - 1)) by lia.
  erewrite bind_of_Ok by (apply readSRAM_byte_at; lia).
  rewrite createByte_in_board by exact Hx.
  unfold lift, bind, writeSRAM.
  rewrite sram_address_small by lia.
  rewrite Z.lor_comm.
  rewrite !to_uchar_lor by (apply byte_at_range || apply pow2_byte; lia).
  reflexivity.
Qed.

Lemma updateEnemyBoard_store (board : Z) (s : state) :
  1 <= yourShotX s <= 8 -> 1 <= yourShotY s <= 8 -> 0 <= board <= 248 ->
  updateEnemyBoard board s =
    Ok (tt, set_sram
              (<[board + yourShotY s - 1 :=
                   Z.lor (byte_at (sram s) (board + yourShotY s - 1))
                         (2 ^ (8 - yourShotX s))]> (sram s)) s).
Proof.
  intros Hx Hy Hb. unfold updateEnemyBoard, bind, gets.
  rewrite (to_int_small board) by lia.
  rewrite (to_uint_small (yourShotY s - 1)), (to_uint_small board) by lia.
  rewrite (to_uint_small (yourShotY s - 1 + board)) by lia.
  replace (yourShotY s - 1 + board) with (board + yourShotY s - 1) by lia.
  rewrite readSRAM_byte_at by lia.
  rewrite createByte_in_board by exact Hx.
  unfold lift, writeSRAM.
  rewrite sram_address_small by lia.
  rewrite !to_uchar_lor by (apply byte_at_range || apply pow2_byte; lia).
  reflexivity.
Qed.

Lemma updateYourBoard_store (s : state) :
  1 <= theirShotX s <= 8 -> 1 <= theirShotY s <= 8 ->
  exists s',
    updateYourBoard s = Ok (tt, s') /\
    sram s' =
      (if cell (sram s) boardBase (theirShotX s) (theirShotY s)
       then <[boardBase + theirShotY s - 1 :=
                Z.land (Z.lnot (2 ^ (8 - theirShotX s)))
                       (byte_at (sram s) (boardBase + theirShotY s - 1))]> (sram s)
       else sram s) /\
    enemyHits s' =
      (if cell (sram s) boardBase (theirShotX s) (theirShotY s)
       then to_uint (enemyHits s + 1) else enemyHits s) /\
    yourHits s' = yourHits s /\
    theirShotX s' = theirShotX s /\ theirShotY s' = theirShotY s.
Proof.
  intros Hx Hy. unfold updateYourBoard, bind, gets, cell, boardBase, BOARD_WIDTH.
  rewrite (to_uint_small (16 + theirShotY s)) by lia.
  rewrite (to_uint_small (16 + theirShotY s - 1)) by lia.
  rewrite (to_uint_small (8 - theirShotX s)) by lia.
  rewrite readSRAM_byte_at by lia.
  destruct (Z.ltb_spec (8 - theirShotX s) 32); [|lia].
  set (byte := byte_at (sram s) (16 + theirShotY s - 1)).
  rewrite land_1_b2z, Z.shiftr_spec, Z.add_0_l by lia.
  destruct (Z.testbit byte (8 - theirShotX s)) eqn:Hbit; cbn [Z.b2z].
  - rewrite to_int_small by lia. cbn [Z.eqb].
    unfold modify, lift. rewrite createByte_in_board by exact Hx.
    unfold writeSRAM. rewrite sram_address_small by lia.
    eexists. split; [reflexivity|]. cbn.
    rewrite to_uchar_land_r by apply byte_at_range.
    repeat split; reflexivity.
  - rewrite to_int_small by lia. cbn [Z.eqb].
    unfold modify. eexists. split; [reflexivity|]. cbn.
    repeat split; reflexivity.
Qed.

(** C10: for a column [x] and a row [y] in 1..8, [setIndexHigh x y base]
    and [updateEnemyBoard base] (with the shot at column [x], row [y]) change
    the store only at address [base + (y - 1)], and only by or-ing in the
    one-bit mask of the column: every other bit of that byte and every other
    byte keep their value.  [updateYourBoard] (with the incoming shot at
    column [x], row [y]) changes the store only at the ships-board byte of
    row [y], and only by clearing the bit of column [x] when it was set; on a
    miss the store is unchanged. *)
Theorem board_updates_frame (s : state) (x y base : Z) :
  1 <= x <= 8 -> 1 <= y <= 8 -> 0 <= base <= 248 ->
  (exists s',
     setIndexHigh x y base s = Ok (tt, s') /\
     sets_one_bit (sram s) (sram s') (base + (y - 1)) (8 - x)) /\
  (exists s',
     updateEnemyBoard base (set_yourShot x y s) = Ok (tt, s') /\
     sets_one_bit (sram s) (sram s') (base + (y - 1)) (8 - x)) /\
  (exists s',
     updateYourBoard (set_theirShot x y s) = Ok (tt, s') /\
     if cell (sram s) boardBase x y
     then clears_one_bit (sram s) (sram s') (boardBase + (y - 1)) (8 - x)
     else sram s' = sram s).
Proof.
  intros Hx Hy Hb.
  replace (base + (y - 1)) with (base + y - 1) by lia.
  replace (boardBase + (y - 1)) with (boardBase + y - 1) by lia.
  split; [|split].
  - eexists. split; [apply setIndexHigh_store; assumption|].
    cbn [sram set_sram]. apply insert_sets_one_bit. lia.
  - eexists. split; [apply updateEnemyBoard_store; assumption|].
    cbn [sram set_sram set_yourShot yourShotX yourShotY].
    apply insert_sets_one_bit. lia.
  - destruct (updateYourBoard_store (set_theirShot x y s)) as (s' & Hrun & Hmem & _);
      [exact Hx | exact Hy |].
    cbn [sram set_theirShot theirShotX theirShotY] in Hmem.
    exists s'. split; [exact Hrun|]. rewrite Hmem.
    destruct (cell (sram s) boardBase x y); [|reflexivity].
    apply insert_clears_one_bit. lia.
Qed.

Lemma board_updates_frame_witness :
  exists s',
    setIndexHigh 3 2 boardBase (initial_state ∅ [] []) = Ok (tt, s') /\
    sets_one_bit ∅ (sram s') (boardBase + (2 - 1)) (8 - 3).
Proof.
  destruct (board_updates_frame (initial_state ∅ [] []) 3 2 boardBase)
    as [H _]; [lia | lia | unfold boardBase; lia |].
  exact H.
Defined.

(** ** Coordinates on the wire *)

Lemma charToInt_letter (k : Z) : 1 <= k <= 26 -> charToInt (64 + k) = k.
Proof.
  intros Hk. unfold charToInt. rewrite to_uchar_small by lia.
  destruct (Z.ltb_spec 64 (64 + k)); [|lia].
  rewrite to_uint_small by lia. lia.
Qed.

Lemma charToInt_digit (k : Z) : 0 <= k <= 9 -> charToInt (48 + k) = k.
Proof.
  intros Hk. unfold charToInt. rewrite to_uchar_small by lia.
  destruct (Z.ltb_spec 64 (48 + k)); [lia|].
  rewrite to_uint_small by lia. lia.
Qed.

(** C9 as stated fails on its example: the buffer "C6" is decoded to
    column 6, row 3, not to column 3, row 6. *)
Lemma C6_is_not_column_3_row_6 :
  let s := set_inputBuffer (keys "C6" ++ replicate 8 0) (initial_state ∅ [] []) in
  exists s',
    translateInputBuffer s = Ok (tt, s') /\
    theirShotX s' = 6 /\ theirShotY s' = 3 /\
    ~ (theirShotX s' = 3 /\ theirShotY s' = 6).
Proof.
  eexists. split; [vm_compute; reflexivity|].
  cbn. repeat split; try reflexivity. intros [H _]. discriminate H.
Qed.

(** C9 (amended): a coordinate on the wire is two characters decoded with
    [charToInt], 'A' and '1' giving 1 up to 'H' and '8' giving 8; the first
    character (the letter) is the row, the index of the row byte, and the
    second (the digit) is the column, the bit inside the row byte.  So "C6"
    is row 3, column 6. *)
Theorem coordinate_decoding (s : state) (row col : Z) (rest : list Z) :
  1 <= row <= 8 -> 1 <= col <= 8 ->
  inputBuffer s = (64 + row) :: (48 + col) :: rest ->
  charToInt (64 + row) = row /\ charToInt (48 + row) = row /\
  translateInputBuffer s = Ok (tt, set_theirShot col row s) /\
  checkMove col row boardBase (set_theirShot col row s) =
    Ok (Z.b2z (Z.testbit (byte_at (sram s) (boardBase + (row - 1))) (8 - col)),
        set_theirShot col row s).
Proof.
  intros Hr Hc Hbuf.
  split; [apply charToInt_letter; lia|].
  split; [apply charToInt_digit; lia|].
  split.
  - unfold translateInputBuffer. rewrite Hbuf. cbn [load_buf lookup list_lookup].
    rewrite charToInt_letter, charToInt_digit by lia. reflexivity.
  - rewrite checkMove_cell by (unfold boardBase; lia).
    unfold cell, BOARD_WIDTH. cbn [sram set_theirShot].
    replace (boardBase + row - 1) with (boardBase + (row - 1)) by lia.
    reflexivity.
Qed.

Lemma coordinate_decoding_witness :
  let s := set_inputBuffer (keys "C6" ++ replicate 8 0) (initial_state ∅ [] []) in
  translateInputBuffer s = Ok (tt, set_theirShot 6 3 s).
Proof.
  intros s.
  destruct (coordinate_decoding s 3 6 (replicate 8 0)) as (_ & _ & H & _);
    [lia | lia | reflexivity |].
  exact H.
Defined.

(** ** The sending side *)

Lemma sendChar_after_send (c : Z) (s : state) :
  sendChar c s = Ok (tt, after_send c (send_events c) s).
Proof.
  unfold sendChar, after_send, send_events, frame_of. cbv zeta. reflexivity.
Qed.

(** Two states with the same components are the same state. *)
Lemma state_eq (s1 s2 : state) :
  inputBuffer s1 = inputBuffer s2 -> outputBuffer s1 = outputBuffer s2 ->
  sent s1 = sent s2 -> parity s1 = parity s2 ->
  enemyHits s1 = enemyHits s2 -> yourHits s1 = yourHits s2 ->
  yourShotX s1 = yourShotX s2 -> yourShotY s1 = yourShotY s2 ->
  theirShotX s1 = theirShotX s2 -> theirShotY s1 = theirShotY s2 ->
  sram s1 = sram s2 -> console s1 = console s2 ->
  link_in s1 = link_in s2 -> trace s1 = trace s2 ->
  s1 = s2.
Proof.
  destruct s1, s2.
  cbn [inputBuffer outputBuffer sent parity enemyHits yourHits yourShotX
       yourShotY theirShotX theirShotY sram console link_in trace].
  intros. subst. reflexivity.
Qed.

Lemma emit_set_twice (p1 f1 p2 f2 : Z) (es1 es2 : list event) (s : state) :
  emit es2 (set_parity p2 (set_sent f2 (emit es1 (set_parity p1 (set_sent f1 s))))) =
  emit (es1 ++ es2) (set_parity p2 (set_sent f2 s)).
Proof.
  apply state_eq; try reflexivity.
  cbn [trace emit set_parity set_sent]. symmetry. apply app_assoc.
Qed.

Lemma after_send_twice (c d : Z) (es1 es2 : list event) (s : state) :
  after_send d es2 (after_send c es1 s) = after_send d (es1 ++ es2) s.
Proof. unfold after_send. apply emit_set_twice. Qed.

Lemma drop_cons_inv {A} (l : list A) (i : nat) (x : A) (tl : list A) :
  drop i l = x :: tl -> l !! i = Some x /\ drop (S i) l = tl.
Proof.
  intros H.
  assert (Hx : l !! i = Some x).
  { rewrite <- (Nat.add_0_r i), <- lookup_drop, H. reflexivity. }
  split; [exact Hx|].
  rewrite (drop_S _ _ _ Hx) in H. congruence.
Qed.

Lemma outputBuffer_after_send (c : Z) (es : list event) (s : state) :
  outputBuffer (after_send c es s) = outputBuffer s.
Proof. reflexivity. Qed.

(** [sendString] sends the string in [outputBuffer], terminator included,
    one frame per character, and nothing after the terminator. *)
Lemma sendString_loop_sends (payload : list Z) :
  forall (n i : nat) (s : state) (rest : list Z),
    drop i (outputBuffer s) = payload ++ 0 :: rest ->
    Forall (fun c => c <> 0) payload ->
    (length payload < n)%nat ->
    sendString_loop n i s =
      Ok (tt, after_send 0 (flat_map send_events (payload ++ [0])) s).
Proof.
  induction payload as [|c payload IH]; intros n i s rest Hdrop Hnz Hn.
  - destruct n as [|n]; [cbn [length] in Hn; lia|].
    apply drop_cons_inv in Hdrop as [Hi _].
    cbn [sendString_loop]. unfold bind at 1, lift, load_buf. rewrite Hi.
    unfold bind. rewrite sendChar_after_send.
    rewrite Z.eqb_refl. unfold ret. cbn [app flat_map].
    rewrite app_nil_r. reflexivity.
  - destruct n as [|n]; [cbn [length] in Hn; lia|].
    cbn [app] in Hdrop. apply drop_cons_inv in Hdrop as [Hi Hdrop].
    apply Forall_cons in Hnz as [Hc Hnz].
    cbn [sendString_loop]. unfold bind at 1, lift, load_buf. rewrite Hi.
    unfold bind at 1. rewrite sendChar_after_send.
    destruct (Z.eqb_spec c 0) as [?|_]; [contradiction|].
    rewrite (IH n (S i) _ rest);
      [| rewrite outputBuffer_after_send; exact Hdrop | exact Hnz
       | cbn [length] in Hn; lia].
    rewrite after_send_twice. reflexivity.
Qed.

Lemma frames_sent_app (t1 t2 : list event) :
  frames_sent (t1 ++ t2) = frames_sent t1 ++ frames_sent t2.
Proof.
  induction t1 as [|e t1 IH]; [reflexivity|].
  destruct e; cbn [app frames_sent]; rewrite IH; reflexivity.
Qed.

Lemma frames_sent_send_events (l : list Z) :
  frames_sent (flat_map send_events l) = map frame_of l.
Proof.
  induction l as [|c l IH]; [reflexivity|].
  cbn [flat_map send_events app frames_sent map]. rewrite IH. reflexivity.
Qed.

Lemma frames_sent_ack_pulses (n : nat) : frames_sent (ack_pulses n) = [].
Proof. induction n as [|n IH]; [reflexivity | exact IH]. Qed.

(** ** The receiving side *)

Lemma reception_only_refl (s : state) : reception_only s s.
Proof. unfold reception_only. repeat split; reflexivity. Qed.

Lemma reception_only_trans (s1 s2 s3 : state) :
  reception_only s1 s2 -> reception_only s2 s3 -> reception_only s1 s3.
Proof.
  unfold reception_only. intros H1 H2.
  destruct H1 as (?&?&?&?&?&?&?&?&?&?&?), H2 as (?&?&?&?&?&?&?&?&?&?&?).
  repeat split; congruence.
Qed.

Lemma reception_only_after_frame f rest i s :
  reception_only s (after_frame f rest i s).
Proof.
  unfold reception_only, after_frame.
  repeat split; try reflexivity.
  cbn [inputBuffer emit set_inputBuffer]. apply length_insert.
Qed.

Lemma reception_only_after_bad_frame f rest s :
  reception_only s (after_bad_frame f rest s).
Proof. unfold reception_only, after_bad_frame. repeat split; reflexivity. Qed.

Lemma readString_loop_unfold (f : Z) (rest : list Z) (i : nat) (s : state) :
  readString_loop (f :: rest) i s =
    if parity_ok f then
      match store_buf i (frame_data f) (inputBuffer s) with
      | Ok _ =>
          if frame_data f =? 0 then Ok (0, after_frame f rest i s)
          else readString_loop rest (S i) (after_frame f rest i s)
      | _ => Undefined
      end
    else Ok (1, after_bad_frame f rest s).
Proof.
  cbn [readString_loop]. cbv zeta.
  change (to_uchar (Z.shiftr (to_uchar f) 1)) with (frame_data f).
  change (to_uchar (Z.land (to_uchar f) 1)) with (frame_parity f).
  change (computeParity (frame_data f) =? frame_parity f) with (parity_ok f).
  destruct (parity_ok f); [|reflexivity].
  change (inputBuffer (set_link_in rest (set_parity (frame_parity f) s)))
    with (inputBuffer s).
  unfold store_buf. case_decide; reflexivity.
Qed.

Lemma readString_loop_good_frame (f : Z) (rest : list Z) (i : nat) (s : state) :
  good_frame f -> (i < length (inputBuffer s))%nat ->
  readString_loop (f :: rest) i s =
    readString_loop rest (S i) (after_frame f rest i s).
Proof.
  intros [Hp Hd] Hi. rewrite readString_loop_unfold, Hp.
  unfold store_buf. rewrite decide_True by exact Hi.
  destruct (Z.eqb_spec (frame_data f) 0); [contradiction | reflexivity].
Qed.

Lemma readString_loop_terminator (f : Z) (rest : list Z) (i : nat) (s : state) :
  parity_ok f = true -> frame_data f = 0 -> (i < length (inputBuffer s))%nat ->
  readString_loop (f :: rest) i s = Ok (0, after_frame f rest i s).
Proof.
  intros Hp Hd Hi. rewrite readString_loop_unfold, Hp.
  unfold store_buf. rewrite decide_True by exact Hi.
  rewrite Hd. reflexivity.
Qed.

Lemma readString_loop_bad_frame (f : Z) (rest : list Z) (i : nat) (s : state) :
  parity_ok f = false ->
  readString_loop (f :: rest) i s = Ok (1, after_bad_frame f rest s).
Proof. intros Hp. rewrite readString_loop_unfold, Hp. reflexivity. Qed.

Lemma ack_pulses_snoc (n : nat) : ack_pulses n ++ ack_pulse = ack_pulses (S n).
Proof.
  induction n as [|n IH]; [reflexivity|].
  change (ack_pulses (S n)) with (ack_pulse ++ ack_pulses n).
  rewrite <- app_assoc, IH. reflexivity.
Qed.

(** A run of accepted frames fills [inputBuffer] from index [i] on and is
    acknowledged frame by frame. *)
Lemma readString_loop_good (good : list Z) :
  forall (i : nat) (s : state) (rest : list Z),
    Forall good_frame good ->
    (i + length good <= length (inputBuffer s))%nat ->
    exists s1,
      readString_loop (good ++ rest) i s =
        readString_loop rest (i + length good) s1 /\
      reception_only s s1 /\
      take (i + length good) (inputBuffer s1) =
        take i (inputBuffer s) ++ map frame_data good /\
      trace s1 = trace s ++ ack_pulses (length good) /\
      (good = [] -> s1 = s).
Proof.
  induction good as [|f good IH]; intros i s rest Hgood Hlen.
  - exists s. cbn [app length map ack_pulses]. rewrite Nat.add_0_r, !app_nil_r.
    split; [reflexivity|]. split; [apply reception_only_refl|].
    repeat split; reflexivity.
  - apply Forall_cons in Hgood as [Hf Hgood]. cbn [length] in Hlen.
    cbn [app]. rewrite readString_loop_good_frame by (exact Hf || lia).
    destruct (IH (S i) (after_frame f (good ++ rest) i s) rest Hgood)
      as (s1 & Hrun & Honly & Htake & Htrace & _).
    { pose proof (reception_only_after_frame f (good ++ rest) i s) as H.
      destruct H as (_&_&_&_&_&_&_&_&_&_&H). rewrite H. lia. }
    exists s1. cbn [length].
    replace (i + S (length good))%nat with (S i + length good)%nat by lia.
    split; [exact Hrun|].
    split; [eapply reception_only_trans;
            [apply reception_only_after_frame | exact Honly]|].
    split; [|split; [|discriminate]].
    + rewrite Htake. unfold after_frame. cbn [inputBuffer emit set_inputBuffer].
      cbn [map]. rewrite cons_middle, app_assoc. f_equal.
      erewrite take_S_r by (apply list_lookup_insert_eq; lia).
      rewrite take_insert_ge by lia. reflexivity.
    + rewrite Htrace. unfold after_frame. cbn [trace emit set_inputBuffer set_link_in set_parity].
      rewrite <- app_assoc. reflexivity.
Qed.

Lemma cstring_app (p tl : list Z) :
  Forall (fun c => c <> 0) p -> cstring (p ++ 0 :: tl) = p.
Proof.
  induction p as [|c p IH]; intros Hp; [reflexivity|].
  apply Forall_cons in Hp as [Hc Hp]. cbn [app cstring].
  destruct (Z.eqb_spec c 0); [contradiction|]. rewrite IH by exact Hp. reflexivity.
Qed.

Lemma cstring_terminated (buf p : list Z) :
  take (length p) buf = p -> buf !! length p = Some 0 ->
  Forall (fun c => c <> 0) p -> cstring buf = p.
Proof.
  intros Htake Hnul Hp.
  rewrite <- (take_drop (length p) buf), Htake.
  rewrite (drop_S _ _ _ Hnul). apply cstring_app, Hp.
Qed.

(** ** Round trip over a fault-free link *)

Lemma frame_of_table :
  Forall (fun c => parity_ok (frame_of c) = true /\ frame_data (frame_of c) = c)
         (seqZ 0 128).
Proof. apply (bool_decide_unpack _). vm_compute. exact I. Qed.

(** A 7-bit character survives framing: the receiver finds the parity it
    expects and recovers the character. *)
Lemma frame_of_decodes (c : Z) :
  0 <= c < 128 -> parity_ok (frame_of c) = true /\ frame_data (frame_of c) = c.
Proof.
  intros Hc. apply (Forall_seqZ_elim _ 0 128 c frame_of_table). lia.
Qed.

(** A frame is one byte: the character moves up by one bit and loses its
    top bit. *)
Lemma frame_of_range (c : Z) : 0 <= frame_of c < 256.
Proof. unfold frame_of. cbv zeta. apply to_uchar_range. Qed.

Lemma good_frames_of_payload (payload : list Z) :
  Forall (fun c => 0 < c < 128) payload ->
  Forall good_frame (map frame_of payload) /\
  map frame_data (map frame_of payload) = payload.
Proof.
  induction payload as [|c payload IH]; intros Hp.
  - split; [constructor | reflexivity].
  - apply Forall_cons in Hp as [Hc Hp]. destruct (IH Hp) as [IH1 IH2].
    destruct (frame_of_decodes c) as [Hpar Hdat]; [lia|].
    split.
    + cbn [map]. constructor; [|exact IH1].
      split; [exact Hpar | rewrite Hdat; lia].
    + cbn [map]. rewrite Hdat, IH2. reflexivity.
Qed.

Lemma frames_between_after_send (c : Z) (es : list event) (s : state) :
  frames_between s (after_send c es s) = frames_sent es.
Proof.
  unfold frames_between, after_send. cbn [trace emit].
  change (trace (set_parity _ (set_sent _ s))) with (trace s).
  rewrite frames_sent_app. apply drop_app_length.
Qed.

(** Reception of a whole string: accepted frames, then the terminator. *)
Lemma readString_receives (s : state) (good : list Z) (term : Z) (rest : list Z) :
  link_in s = good ++ term :: rest ->
  Forall good_frame good ->
  parity_ok term = true -> frame_data term = 0 ->
  (length good < length (inputBuffer s))%nat ->
  exists s',
    readString s = Ok (0, s') /\
    reception_only s s' /\
    cstring (inputBuffer s') = map frame_data good /\
    inputBuffer s' !! length good = Some 0 /\
    link_in s' = rest /\
    trace s' = trace s ++ ack_pulses (S (length good)).
Proof.
  intros Hlink Hgood Hpar Hdat Hlen. unfold readString. rewrite Hlink.
  destruct (readString_loop_good good 0 s (term :: rest) Hgood)
    as (s1 & Hrun & Honly & Htake & Htrace & _); [cbn; lia|].
  cbn [Nat.add take app] in Hrun, Htake.
  pose proof Honly as (_&_&_&_&_&_&_&_&_&_&Hlen1).
  rewrite Hrun, readString_loop_terminator by (assumption || lia).
  eexists. split; [reflexivity|].
  split.
  { eapply reception_only_trans; [exact Honly | apply reception_only_after_frame]. }
  unfold after_frame. cbn [inputBuffer link_in trace emit set_inputBuffer set_link_in set_parity].
  rewrite Hdat.
  assert (Hnz : Forall (fun c => c <> 0) (map frame_data good)).
  { apply Forall_map. eapply Forall_impl; [exact Hgood|]. intros f [_ Hf]. exact Hf. }
  assert (Hnul : <[length good := 0]> (inputBuffer s1) !! length good = Some 0).
  { apply list_lookup_insert_eq. lia. }
  split; [|split; [exact Hnul | split; [reflexivity|]]].
  - apply cstring_terminated; rewrite ?length_map; [| exact Hnul | exact Hnz].
    rewrite take_insert_ge by lia. exact Htake.
  - rewrite Htrace, <- app_assoc, ack_pulses_snoc. reflexivity.
Qed.

(** C1 as stated fails for a byte with its top bit set: the string holding
    the single byte 128 fits the buffer, its frame is 1 (the top bit is lost
    in the 8-bit frame), and the receiver reports a parity error instead of
    returning the string. *)
Lemma roundtrip_fails_above_127 :
  let s := set_outputBuffer (128 :: replicate 9 0) (initial_state ∅ [] []) in
  exists s' r',
    sendString s = Ok (tt, s') /\
    frames_between s s' = [1; 0] /\
    readString (initial_state ∅ [] (frames_between s s')) = Ok (1, r') /\
    cstring (outputBuffer s) = [128] /\
    cstring (inputBuffer r') = [] /\
    trace r' = PrintParityError 1 :: ack_pulse.
Proof.
  eexists. eexists.
  split; [vm_compute; reflexivity|].
  split; [vm_compute; reflexivity|].
  split; [vm_compute; reflexivity|].
  repeat split; reflexivity.
Qed.

(** C1 (amended): for every null-terminated string of 7-bit characters whose
    payload fits the buffer, [sendString] puts one 8-bit frame per character
    on the link, terminator included (the low seven data bits, with the
    parity bit as the low bit); over a fault-free link [readString] returns 0
    and leaves the identical string, terminator included, in [inputBuffer],
    acknowledging every frame and reporting no parity error. *)
Theorem sendString_readString_roundtrip
    (s r : state) (payload rest : list Z) :
  outputBuffer s = payload ++ 0 :: rest ->
  length (outputBuffer s) = bufLen ->
  Forall (fun c => 0 < c < 128) payload ->
  length (inputBuffer r) = bufLen ->
  exists s' r',
    sendString s = Ok (tt, s') /\
    frames_between s s' = map frame_of (payload ++ [0]) /\
    Forall (fun f => 0 <= f < 256) (frames_between s s') /\
    readString (set_link_in (frames_between s s') r) = Ok (0, r') /\
    cstring (outputBuffer s) = payload /\
    cstring (inputBuffer r') = payload /\
    inputBuffer r' !! length payload = Some 0 /\
    link_in r' = [] /\
    trace r' = trace r ++ ack_pulses (S (length payload)).
Proof.
  intros Hbuf Hlen Hpayload Hin.
  assert (Hnz : Forall (fun c => c <> 0) payload).
  { eapply Forall_impl; [exact Hpayload|]. cbn. intros c Hc. lia. }
  assert (Hshort : (length payload < bufLen)%nat).
  { rewrite Hbuf, length_app in Hlen. cbn [length] in Hlen. lia. }
  destruct (good_frames_of_payload payload Hpayload) as [Hgood Hdata].
  destruct (frame_of_decodes 0) as [Hpar0 Hdat0]; [lia|].
  set (s' := after_send 0 (flat_map send_events (payload ++ [0])) s).
  assert (Hframes : frames_between s s' = map frame_of (payload ++ [0])).
  { unfold s'. rewrite frames_between_after_send. apply frames_sent_send_events. }
  destruct (readString_receives (set_link_in (frames_between s s') r)
              (map frame_of payload) (frame_of 0) [])
    as (r' & Hrun & _ & Hstr & Hnul & Hlink & Htrace);
    [ rewrite Hframes, map_app; reflexivity | exact Hgood | exact Hpar0
    | exact Hdat0 | rewrite length_map; cbn [inputBuffer set_link_in]; lia |].
  rewrite length_map in Hnul, Htrace. rewrite Hdata in Hstr.
  exists s', r'.
  split; [unfold sendString; apply (sendString_loop_sends payload bufLen 0 s rest);
          [exact Hbuf | exact Hnz | exact Hshort]|].
  split; [exact Hframes|].
  split; [rewrite Hframes; apply Forall_map, Forall_forall; intros; apply frame_of_range|].
  split; [exact Hrun|].
  split; [rewrite Hbuf; apply cstring_app, Hnz|].
  repeat split; assumption.
Qed.

Lemma sendString_readString_roundtrip_witness :
  let s := set_outputBuffer (keys "C6" ++ replicate 8 0) (initial_state ∅ [] []) in
  exists s' r',
    sendString s = Ok (tt, s') /\
    readString (set_link_in (frames_between s s') (initial_state ∅ [] [])) = Ok (0, r') /\
    cstring (inputBuffer r') = keys "C6".
Proof.
  intros s.
  destruct (sendString_readString_roundtrip s (initial_state ∅ [] [])
              (keys "C6") (replicate 7 0))
    as (s' & r' & Hsend & _ & _ & Hread & _ & Hstr & _).
  - reflexivity.
  - reflexivity.
  - repeat constructor.
  - reflexivity.
  - exists s', r'. repeat split; assumption.
Defined.

(** ** A parity error during reception *)

(** On the first frame with the wrong parity [readString] prints the
    message, acknowledges the frame, stops and returns 1; nothing is put on
    [data_out], the frames behind the bad one stay on the link, and only the
    reception state has changed. *)
Lemma readString_parity_error (s : state) (good : list Z) (bad : Z) (rest : list Z) :
  link_in s = good ++ bad :: rest ->
  Forall good_frame good ->
  parity_ok bad = false ->
  (length good <= length (inputBuffer s))%nat ->
  exists s',
    readString s = Ok (1, s') /\
    reception_only s s' /\
    take (length good) (inputBuffer s') = map frame_data good /\
    link_in s' = rest /\
    trace s' = trace s ++ ack_pulses (length good)
                       ++ PrintParityError bad :: ack_pulse /\
    frames_between s s' = [].
Proof.
  intros Hlink Hgood Hbad Hlen. unfold readString. rewrite Hlink.
  destruct (readString_loop_good good 0 s (bad :: rest) Hgood)
    as (s1 & Hrun & Honly & Htake & Htrace & _); [cbn; lia|].
  cbn [Nat.add take app] in Hrun, Htake.
  rewrite Hrun, readString_loop_bad_frame by exact Hbad.
  eexists. split; [reflexivity|].
  split.
  { eapply reception_only_trans; [exact Honly | apply reception_only_after_bad_frame]. }
  unfold after_bad_frame.
  split; [exact Htake|]. split; [reflexivity|].
  assert (Ht : trace (emit (PrintParityError bad :: ack_pulse)
                        (set_link_in rest (set_parity (frame_parity bad) s1))) =
               trace s ++ ack_pulses (length good) ++ PrintParityError bad :: ack_pulse).
  { cbn [trace emit set_link_in set_parity]. rewrite Htrace, <- app_assoc. reflexivity. }
  split; [exact Ht|].
  unfold frames_between. rewrite Ht, frames_sent_app, drop_app_length.
  rewrite frames_sent_app, frames_sent_ack_pulses. reflexivity.
Qed.

(** After a parity error the next call receives the next string as usual. *)
Lemma readString_after_parity_error
    (s : state) (bad : Z) (payload : list Z) (rest : list Z) :
  link_in s = bad :: map frame_of payload ++ frame_of 0 :: rest ->
  parity_ok bad = false ->
  Forall (fun c => 0 < c < 128) payload ->
  (length payload < length (inputBuffer s))%nat ->
  exists s1 s2,
    readString s = Ok (1, s1) /\
    readString s1 = Ok (0, s2) /\
    cstring (inputBuffer s2) = payload /\
    link_in s2 = rest.
Proof.
  intros Hlink Hbad Hpayload Hlen.
  destruct (readString_parity_error s [] bad _ Hlink) as
    (s1 & Hrun1 & Honly & _ & Hlink1 & _); [constructor | exact Hbad | cbn; lia |].
  destruct Honly as (_&_&_&_&_&_&_&_&_&_&Hlen1).
  destruct (good_frames_of_payload payload Hpayload) as [Hgood Hdata].
  destruct (frame_of_decodes 0) as [Hpar0 Hdat0]; [lia|].
  destruct (readString_receives s1 (map frame_of payload) (frame_of 0) rest)
    as (s2 & Hrun2 & _ & Hstr & _ & Hlink2 & _);
    [ exact Hlink1 | exact Hgood | exact Hpar0 | exact Hdat0
    | rewrite length_map; lia |].
  exists s1, s2. rewrite Hdata in Hstr. repeat split; assumption.
Qed.

(** C4 (the code departs from the claim): [readString] reports the parity
    error, but [main] drops the value it returns and finishes the turn with
    what [inputBuffer] holds.  Here the opponent has fired at "A1"; the
    player then fires at "B2" and the reply "0" (a miss) arrives with its
    parity bit inverted.  The message is printed, and the turn still marks
    the shot, finds the old 'A' in [inputBuffer], records a hit at B2 and
    counts it. *)
Theorem parity_error_turn_counts_stale_reply :
  let typed :=
    keys ("A1" +:+ newline +:+ "h" +:+ newline +:+
          "B1" +:+ newline +:+ "h" +:+ newline +:+
          "2" +:+ newline +:+ "B2" +:+ newline) in
  let arriving :=
    map frame_of (keys "A1") ++ [frame_of 0] ++
    [flip_bit (frame_of 48) 0; frame_of 0] in
  exists t1 s1 t2 s2 t3 s3,
    main_setup 1 (initial_state ∅ typed arriving) = Ok (t1, s1) /\
    turn 1 t1 s1 = Ok (t2, s2) /\
    turn 1 t2 s2 = Ok (t3, s3) /\
    t1 = 0 /\ t2 = 1 /\
    cstring (inputBuffer s2) = keys "A1" /\
    parity_ok (flip_bit (frame_of 48) 0) = false /\
    PrintParityError (flip_bit (frame_of 48) 0) ∈ trace s3 /\
    cstring (inputBuffer s3) = keys "A1" /\
    yourHits s2 = 0 /\ yourHits s3 = 1 /\
    cell (sram s3) shotsBase 2 2 = true /\
    cell (sram s3) hitsBase 2 2 = true.
Proof.
  do 6 eexists.
  do 7 (split; [run|]).
  split; [apply (bool_decide_unpack _); vm_compute; exact I|].
  runs.
Qed.

(** ** Validation order *)

(** C3 (the code departs from the claim): both prompts evaluate
    [checkMove(x, y, base) || checkIndex(x, y)], so [checkMove] runs first,
    on the coordinate as typed.  For column 9 its shift count is
    [8 - 9] as an [unsigned int], 4294967295; for row 9 it reads the byte at
    offset 8, the first byte of the next board. *)
Theorem checkMove_runs_before_checkIndex :
  fire_prompt 1 (initial_state ∅ (keys ("A9" +:+ newline)) []) = Undefined /\
  checkMove 9 1 shotsBase (initial_state ∅ [] []) = Undefined /\
  to_uint (BOARD_WIDTH - 9) = 4294967295 /\
  checkIndex 9 1 = 1 /\
  (let! _ := eraseSRAM in place_ship 1 LARGE_SHIP_LENGTH)
    (initial_state ∅ (keys ("A7" +:+ newline +:+ "h" +:+ newline)) []) = Undefined /\
  (exists s, checkMove 1 9 shotsBase
               (set_sram {[hitsBase := 128]} (initial_state ∅ [] [])) = Ok (1, s)).
Proof.
  do 5 (split; [run|]).
  eexists. run.
Qed.

(** ** Placement at the edge of the board *)

(** C6 (the code departs from the claim): on the empty board the ship of
    length 4 placed at "A0", horizontally, covers columns 0..3 of row 1;
    column 0 is outside the board, yet the placement is accepted at the
    first prompt, without the message, and only columns 1..3 are marked.
    At the other edge, the same ship placed at "A8" reaches column 11, and
    the check of that cell shifts by an undefined count before the bounds
    are looked at. *)
Theorem placement_accepts_column_zero :
  exists s',
    (let! _ := eraseSRAM in place_ship 1 LARGE_SHIP_LENGTH)
      (initial_state ∅ (keys ("A0" +:+ newline +:+ "h" +:+ newline)) [])
      = Ok (tt, s') /\
    console s' = [] /\ trace s' = [] /\
    checkIndex 0 1 = 0 /\
    byte_at (sram s') boardBase = 224 /\
    map (fun x => cell (sram s') boardBase x 1) [1; 2; 3; 4; 5; 6; 7; 8] =
      [true; true; true; false; false; false; false; false] /\
    (let! _ := eraseSRAM in place_ship 1 LARGE_SHIP_LENGTH)
      (initial_state ∅ (keys ("A8" +:+ newline +:+ "h" +:+ newline)) [])
      = Undefined.
Proof.
  eexists. runs.
Qed.

(** ** The boards during a match *)

(** C7 (the code departs from the claim): a ship placed at "01", vertically,
    is accepted with its first cell in row 0, and [setIndexHigh] stores that
    cell at [boardBase - 1], the last row of the hits board: the match starts
    with a bit in [hitsConfirmed] that is not in [shotsFired].  When the
    opponent then fires at "01", [updateYourBoard] clears that bit of the
    hits board. *)
Theorem hits_board_written_by_row_zero :
  let typed :=
    keys ("01" +:+ newline +:+ "v" +:+ newline +:+
          "A5" +:+ newline +:+ "h" +:+ newline +:+
          "2" +:+ newline) in
  let arriving := map frame_of (keys "01") ++ [frame_of 0] in
  exists t1 s1 t2 s2,
    main_setup 1 (initial_state ∅ typed arriving) = Ok (t1, s1) /\
    cell (sram s1) hitsBase 1 8 = true /\
    cell (sram s1) shotsBase 1 8 = false /\
    game_over s1 = false /\
    turn 1 t1 s1 = Ok (t2, s2) /\
    cell (sram s2) hitsBase 1 8 = false /\
    enemyHits s2 = 1.
Proof.
  do 4 eexists. runs.
Qed.

(** ** The hit counters through the calls *)

Section KeepsCounters.

Context {A B : Type}.

Lemma keeps_ret (a : A) : keeps_counters (ret a).
Proof. intros s a' s' H. injection H as _ <-. split; reflexivity. Qed.

Lemma keeps_gets (f : state -> A) : keeps_counters (gets f).
Proof. intros s a' s' H. injection H as _ <-. split; reflexivity. Qed.

Lemma keeps_lift (r : result A) : keeps_counters (lift r).
Proof.
  intros s a' s' H. unfold lift in H. destruct r; try discriminate.
  injection H as _ <-. split; reflexivity.
Qed.

Lemma keeps_lift_of (f : state -> result A) :
  keeps_counters (fun s => lift (f s) s).
Proof. intros s a' s' H. exact (keeps_lift (f s) s a' s' H). Qed.

Lemma keeps_undefined : keeps_counters (@undefined A).
Proof. intros s a' s' H. discriminate H. Qed.

Lemma keeps_out_of_fuel : keeps_counters (@out_of_fuel A).
Proof. intros s a' s' H. discriminate H. Qed.

Lemma keeps_bind (m : M A) (k : A -> M B) :
  keeps_counters m -> (forall a, keeps_counters (k a)) -> keeps_counters (bind m k).
Proof.
  intros Hm Hk s b s'' H. bind_inv H.
  destruct (Hm _ _ _ H_l) as [H1 H2], (Hk _ _ _ _ H) as [H3 H4].
  split; congruence.
Qed.

Lemma keeps_if (c : bool) (m1 m2 : M A) :
  keeps_counters m1 -> keeps_counters m2 ->
  keeps_counters (if c then m1 else m2).
Proof. destruct c; auto. Qed.

End KeepsCounters.

Lemma keeps_modify (f : state -> state) :
  (forall s, same_counters s (f s)) -> keeps_counters (modify f).
Proof. intros Hf s a s' H. injection H as _ <-. apply Hf. Qed.

Lemma keeps_emit (es : list event) : keeps_counters (modify (emit es)).
Proof. apply keeps_modify. intros s. split; reflexivity. Qed.

(** Breaks a goal [keeps_counters m] along the structure of [m]. *)
Create HintDb keeps discriminated.
#[local] Hint Constants Opaque : keeps.

Ltac keeps_step :=
  lazymatch goal with
  | |- keeps_counters (bind _ _) => apply keeps_bind; [|intros ?]
  | |- keeps_counters (ret _) => apply keeps_ret
  | |- keeps_counters (gets _) => apply keeps_gets
  | |- keeps_counters (lift _) => apply keeps_lift
  | |- keeps_counters (fun s => lift _ s) => apply keeps_lift_of
  | |- keeps_counters undefined => apply keeps_undefined
  | |- keeps_counters out_of_fuel => apply keeps_out_of_fuel
  | |- keeps_counters (modify (emit _)) => apply keeps_emit
  | |- keeps_counters (if _ then _ else _) => apply keeps_if
  | |- keeps_counters _ => solve [auto with keeps nocore]
  end.

Ltac keeps := repeat keeps_step.

Lemma keeps_alt_getchar : keeps_counters alt_getchar.
Proof.
  intros s a s' H. unfold alt_getchar in H. destruct (console s); [discriminate|].
  injection H as _ <-. split; reflexivity.
Qed.
#[local] Hint Resolve keeps_alt_getchar : keeps.

Lemma keeps_enterString : keeps_counters enterString.
Proof.
  intros s a s' H. unfold enterString in H.
  destruct (enterString_loop _ _ _) as [[buf rest]| | |]; try discriminate.
  injection H as _ <-. split; reflexivity.
Qed.
#[local] Hint Resolve keeps_enterString : keeps.

Lemma keeps_sendChar (c : Z) : keeps_counters (sendChar c).
Proof.
  intros s a s' H. rewrite sendChar_after_send in H.
  injection H as _ <-. split; reflexivity.
Qed.
#[local] Hint Resolve keeps_sendChar : keeps.

Lemma keeps_sendString_loop (n i : nat) : keeps_counters (sendString_loop n i).
Proof.
  revert i. induction n as [|n IH]; intros i; cbn [sendString_loop].
  - keeps.
  - keeps.
Qed.
#[local] Hint Resolve keeps_sendString_loop : keeps.

Lemma keeps_sendString : keeps_counters sendString.
Proof. apply keeps_sendString_loop. Qed.
#[local] Hint Resolve keeps_sendString : keeps.

Lemma same_counters_trans (s1 s2 s3 : state) :
  same_counters s1 s2 -> same_counters s2 s3 -> same_counters s1 s3.
Proof. intros [? ?] [? ?]. split; congruence. Qed.

Lemma same_counters_reception (s s' : state) :
  reception_only s s' -> same_counters s s'.
Proof. intros (_&_&He&Hy&_). split; assumption. Qed.

Lemma readString_loop_counters (frames : list Z) :
  forall i s r s', readString_loop frames i s = Ok (r, s') -> same_counters s s'.
Proof.
  induction frames as [|f rest IH]; intros i s r s' H; [discriminate|].
  rewrite readString_loop_unfold in H.
  destruct (parity_ok f).
  - destruct (store_buf _ _ _); try discriminate.
    destruct (frame_data f =? 0).
    + injection H as _ <-.
      apply same_counters_reception, reception_only_after_frame.
    + eapply same_counters_trans; [|exact (IH _ _ _ _ H)].
      apply same_counters_reception, reception_only_after_frame.
  - injection H as _ <-.
    apply same_counters_reception, reception_only_after_bad_frame.
Qed.

Lemma keeps_readString : keeps_counters readString.
Proof. intros s r s' H. exact (readString_loop_counters _ _ _ _ _ H). Qed.
#[local] Hint Resolve keeps_readString : keeps.

Lemma keeps_readSRAM (a : Z) : keeps_counters (readSRAM a).
Proof. intros s r s' H. injection H as _ <-. split; reflexivity. Qed.
#[local] Hint Resolve keeps_readSRAM : keeps.

Lemma keeps_writeSRAM (a b : Z) : keeps_counters (writeSRAM a b).
Proof. intros s r s' H. injection H as _ <-. split; reflexivity. Qed.
#[local] Hint Resolve keeps_writeSRAM : keeps.

Lemma keeps_checkMove (x y base : Z) : keeps_counters (checkMove x y base).
Proof. unfold checkMove. keeps. Qed.
#[local] Hint Resolve keeps_checkMove : keeps.

Lemma keeps_checkMove_or_checkIndex (x y base : Z) :
  keeps_counters (checkMove_or_checkIndex x y base).
Proof. unfold checkMove_or_checkIndex. keeps. Qed.
#[local] Hint Resolve keeps_checkMove_or_checkIndex : keeps.

Lemma keeps_translateOutputBuffer : keeps_counters translateOutputBuffer.
Proof.
  intros s a s' H. unfold translateOutputBuffer in H.
  destruct (load_buf 0 _); try discriminate.
  destruct (load_buf 1 _); try discriminate.
  injection H as _ <-. split; reflexivity.
Qed.
#[local] Hint Resolve keeps_translateOutputBuffer : keeps.

Lemma keeps_translateInputBuffer : keeps_counters translateInputBuffer.
Proof.
  intros s a s' H. unfold translateInputBuffer in H.
  destruct (load_buf 0 _); try discriminate.
  destruct (load_buf 1 _); try discriminate.
  injection H as _ <-. split; reflexivity.
Qed.
#[local] Hint Resolve keeps_translateInputBuffer : keeps.

Lemma keeps_updateEnemyBoard (board : Z) : keeps_counters (updateEnemyBoard board).
Proof.
  unfold updateEnemyBoard.
  keeps.
Qed.
#[local] Hint Resolve keeps_updateEnemyBoard : keeps.

Lemma keeps_setIndexHigh (x y base : Z) : keeps_counters (setIndexHigh x y base).
Proof.
  unfold setIndexHigh.
  keeps.
Qed.
#[local] Hint Resolve keeps_setIndexHigh : keeps.

Lemma keeps_fire_prompt (fuel : nat) : keeps_counters (fire_prompt fuel).
Proof.
  induction fuel as [|fuel IH]; cbn [fire_prompt].
  - keeps.
  - keeps.
Qed.
#[local] Hint Resolve keeps_fire_prompt : keeps.

Lemma keeps_eraseSRAM_loop (n : nat) : forall i, keeps_counters (eraseSRAM_loop n i).
Proof.
  induction n as [|n IH]; intros i; cbn [eraseSRAM_loop].
  - keeps.
  - keeps.
Qed.
#[local] Hint Resolve keeps_eraseSRAM_loop : keeps.

Lemma keeps_read_orientation (fuel : nat) : keeps_counters (read_orientation fuel).
Proof.
  induction fuel as [|fuel IH]; cbn [read_orientation].
  - keeps.
  - keeps.
Qed.
#[local] Hint Resolve keeps_read_orientation : keeps.

Lemma keeps_check_cells (o x y : Z) (n : nat) : keeps_counters (check_cells o x y n).
Proof.
  induction n as [|n IH]; cbn [check_cells].
  - keeps.
  - keeps.
Qed.
#[local] Hint Resolve keeps_check_cells : keeps.

Lemma keeps_mark_cells (o x y : Z) (n : nat) : keeps_counters (mark_cells o x y n).
Proof.
  induction n as [|n IH]; cbn [mark_cells].
  - keeps.
  - keeps.
Qed.
#[local] Hint Resolve keeps_mark_cells : keeps.

Lemma keeps_place_ship (fuel : nat) (i : Z) : keeps_counters (place_ship fuel i).
Proof.
  induction fuel as [|fuel IH]; cbn [place_ship].
  - keeps.
  - keeps.
Qed.
#[local] Hint Resolve keeps_place_ship : keeps.

Lemma keeps_setUpBoats_loop (fuel n : nat) :
  forall i, keeps_counters (setUpBoats_loop fuel n i).
Proof.
  induction n as [|n IH]; intros i; cbn [setUpBoats_loop].
  - keeps.
  - keeps.
Qed.
#[local] Hint Resolve keeps_setUpBoats_loop : keeps.

Lemma keeps_eraseSRAM : keeps_counters eraseSRAM.
Proof. apply keeps_eraseSRAM_loop. Qed.
#[local] Hint Resolve keeps_eraseSRAM : keeps.

Lemma keeps_setUpBoats (fuel : nat) : keeps_counters (setUpBoats fuel).
Proof. apply keeps_setUpBoats_loop. Qed.
#[local] Hint Resolve keeps_setUpBoats : keeps.

Lemma keeps_main_setup (fuel : nat) : keeps_counters (main_setup fuel).
Proof. unfold main_setup. keeps. Qed.

(** ** One turn moves at most one counter, by one *)

Lemma counters_step_keeps_l (s1 s2 s3 : state) :
  same_counters s1 s2 -> counters_step s2 s3 -> counters_step s1 s3.
Proof.
  unfold counters_step, same_counters.
  intros [H1 H2] [[H3 H4]|[[H3 H4]|[H3 H4]]]; rewrite H1, H2 in *; auto.
Qed.

Lemma counters_step_keeps_r (s1 s2 s3 : state) :
  counters_step s1 s2 -> same_counters s2 s3 -> counters_step s1 s3.
Proof.
  unfold counters_step, same_counters.
  intros [[H3 H4]|[[H3 H4]|[H3 H4]]] [H1 H2]; rewrite H1, H2; auto.
Qed.

Lemma keeps_steps {A} (m : M A) : keeps_counters m -> steps_counters m.
Proof. intros H s a s' Hrun. left. exact (H _ _ _ Hrun). Qed.

Lemma steps_bind_l {A B} (m : M A) (k : A -> M B) :
  keeps_counters m -> (forall a, steps_counters (k a)) -> steps_counters (bind m k).
Proof.
  intros Hm Hk s b s'' H. bind_inv H.
  eapply counters_step_keeps_l; [exact (Hm _ _ _ H_l) | exact (Hk _ _ _ _ H)].
Qed.

Lemma steps_bind_r {A B} (m : M A) (k : A -> M B) :
  steps_counters m -> (forall a, keeps_counters (k a)) -> steps_counters (bind m k).
Proof.
  intros Hm Hk s b s'' H. bind_inv H.
  eapply counters_step_keeps_r; [exact (Hm _ _ _ H_l) | exact (Hk _ _ _ _ H)].
Qed.

Lemma steps_if {A} (c : bool) (m1 m2 : M A) :
  steps_counters m1 -> steps_counters m2 -> steps_counters (if c then m1 else m2).
Proof. destruct c; auto. Qed.

Lemma keeps_set_outputBuffer (f : state -> list Z) :
  keeps_counters (modify (fun s => set_outputBuffer (f s) s)).
Proof. apply keeps_modify. intros s. split; reflexivity. Qed.
#[local] Hint Resolve keeps_set_outputBuffer : keeps.

Lemma steps_updateYourBoard : steps_counters updateYourBoard.
Proof.
  unfold updateYourBoard.
  apply steps_bind_l; [keeps|intros y].
  apply steps_bind_l; [keeps|intros x].
  apply steps_bind_l; [keeps|intros byte].
  apply steps_if; [|apply keeps_steps; keeps].
  apply steps_if; [apply keeps_steps; keeps|].
  apply steps_bind_l; [keeps|intros _].
  apply steps_bind_l; [keeps|intros mask].
  apply steps_bind_l; [keeps|intros _].
  apply steps_bind_r; [|intros _; keeps].
  intros s a s' H. injection H as _ <-. right. right. split; reflexivity.
Qed.

Lemma steps_remote_turn : steps_counters remote_turn.
Proof.
  unfold remote_turn.
  apply steps_bind_l; [keeps|intros _].
  apply steps_bind_l; [keeps|intros _].
  apply steps_bind_r; [apply steps_updateYourBoard | intros _; keeps].
Qed.

Lemma steps_local_turn (fuel : nat) : steps_counters (local_turn fuel).
Proof.
  unfold local_turn.
  do 5 (apply steps_bind_l; [keeps|intros _]).
  apply steps_bind_l; [keeps|intros c0].
  apply steps_if; [apply keeps_steps; keeps|].
  apply steps_bind_l; [keeps|intros _].
  intros s a s' H. injection H as _ <-. right. left. split; reflexivity.
Qed.

Lemma steps_turn (fuel : nat) (yourTurn : Z) : steps_counters (turn fuel yourTurn).
Proof.
  unfold turn. apply steps_if.
  - apply steps_bind_r; [apply steps_remote_turn | intros _; keeps].
  - apply steps_bind_r; [apply steps_local_turn | intros _; keeps].
Qed.

(** ** The end of the game *)

Lemma totalHits_value : totalHits = 7.
Proof. reflexivity. Qed.

Lemma game_over_false (s : state) :
  game_over s = false <-> yourHits s <> totalHits /\ enemyHits s <> totalHits.
Proof.
  unfold game_over. rewrite totalHits_value.
  change (to_uint 7) with 7.
  destruct (Z.eqb_spec (yourHits s) 7), (Z.eqb_spec (enemyHits s) 7);
    cbn; split; try discriminate; try tauto; intros; reflexivity.
Qed.

Lemma game_over_true (s : state) :
  game_over s = true <-> yourHits s = totalHits \/ enemyHits s = totalHits.
Proof.
  pose proof (game_over_false s) as H.
  destruct (game_over s); split; intros; try reflexivity; try discriminate.
  - destruct (Z.eq_dec (yourHits s) totalHits); [auto|].
    destruct (Z.eq_dec (enemyHits s) totalHits); [auto|].
    assert (true = false) by (apply H; auto). discriminate.
  - assert (yourHits s <> totalHits /\ enemyHits s <> totalHits) as [? ?]
      by (apply H; reflexivity).
    tauto.
Qed.

Lemma counters_bounded_step (s s' : state) :
  counters_bounded s -> game_over s = false -> counters_step s s' ->
  counters_bounded s'.
Proof.
  unfold counters_bounded. intros [Hy He] Hgo Hstep.
  apply game_over_false in Hgo as [Hy7 He7]. rewrite totalHits_value in *.
  destruct Hstep as [[H1 H2]|[[H1 H2]|[H1 H2]]]; rewrite H1, H2;
    rewrite ?to_uint_small by lia; lia.
Qed.

Lemma loop_reachable_bounded (start p : Z * state) :
  counters_bounded (snd start) -> loop_reachable start p ->
  counters_bounded (snd p).
Proof.
  intros Hstart Hreach. induction Hreach as [|fuel t s t' s' _ IH Hgo Hturn].
  - exact Hstart.
  - cbn [snd] in *. eapply counters_bounded_step; [exact IH | exact Hgo |].
    exact (steps_turn _ _ _ _ _ Hturn).
Qed.

Lemma main_loop_game_over (fuel : nat) (yourTurn : Z) (s : state) :
  game_over s = true -> main_loop (S fuel) yourTurn s = Ok (tt, s).
Proof. intros H. cbn [main_loop]. rewrite H. reflexivity. Qed.

Lemma report_win (s : state) : report s = PrintYouWin <-> yourHits s = totalHits.
Proof.
  unfold report. rewrite totalHits_value. change (to_uint 7) with 7.
  destruct (Z.eqb_spec (yourHits s) 7); split; intros; try discriminate;
    try reflexivity; tauto.
Qed.

Lemma report_lose (s : state) : report s = PrintYouLose <-> yourHits s <> totalHits.
Proof.
  unfold report. rewrite totalHits_value. change (to_uint 7) with 7.
  destruct (Z.eqb_spec (yourHits s) 7); split; intros; try discriminate;
    try reflexivity; tauto.
Qed.

(** The counters stay bounded in every state the loop reaches after the
    setup of [main]. *)
Lemma setup_reachable_bounded
    (fuel : nat) (mem : gmap Z Z) (typed arriving : list Z)
    (yourTurn0 : Z) (s0 : state) (p : Z * state) :
  main_setup fuel (initial_state mem typed arriving) = Ok (yourTurn0, s0) ->
  loop_reachable (yourTurn0, s0) p ->
  counters_bounded (snd p).
Proof.
  intros Hsetup Hreach.
  apply (loop_reachable_bounded (yourTurn0, s0)); [|exact Hreach].
  destruct (keeps_main_setup _ _ _ _ Hsetup) as [Hy He].
  unfold counters_bounded. cbn [snd]. rewrite Hy, He, totalHits_value.
  cbn. lia.
Qed.

(** A turn can be put in front of a run of the loop. *)
Lemma loop_reachable_first (fuel : nat) (t : Z) (s : state) (t1 : Z) (s1 : state)
    (p : Z * state) :
  game_over s = false -> turn fuel t s = Ok (t1, s1) ->
  loop_reachable (t1, s1) p -> loop_reachable (t, s) p.
Proof.
  intros Hgo Hturn Hreach.
  induction Hreach as [|fuel' t2 s2 t3 s3 _ IH Hgo' Hturn'].
  - eapply reach_turn; [apply reach_start | exact Hgo | exact Hturn].
  - eapply reach_turn; [exact IH | exact Hgo' | exact Hturn'].
Qed.

(** When the loop returns, it returns a state it reached, and the game is
    over there. *)
Lemma main_loop_reaches (fuel : nat) :
  forall (t : Z) (s s' : state),
    main_loop fuel t s = Ok (tt, s') ->
    game_over s' = true /\ exists t', loop_reachable (t, s) (t', s').
Proof.
  induction fuel as [|fuel IH]; intros t s s' H; [discriminate|].
  cbn [main_loop] in H. destruct (game_over s) eqn:Hgo.
  - injection H as <-. split; [exact Hgo|]. exists t. apply reach_start.
  - bind_inv H. destruct (IH _ _ _ H) as [Hover [t' Hreach]].
    split; [exact Hover|]. exists t'.
    eapply loop_reachable_first; [exact Hgo | exact H_l | exact Hreach].
Qed.

Lemma main_unfold fuel s :
  main fuel s =
  match main_setup fuel s with
  | Ok (t0, s0) =>
      match main_loop fuel t0 s0 with
      | Ok (_, s1) => Ok (0, emit [report s1] s1)
      | Undefined => Undefined | Blocked => Blocked | OutOfFuel => OutOfFuel
      end
  | Undefined => Undefined | Blocked => Blocked | OutOfFuel => OutOfFuel
  end.
Proof.
  unfold main, bind at 1.
  destruct (main_setup fuel s) as [[t0 s0]| | |]; reflexivity.
Qed.

(** [main], when it returns, returns 0 after printing the report of a state
    in which one counter equals [totalHits] and neither exceeds it. *)
Lemma main_returns (fuel : nat) (mem : gmap Z Z) (typed arriving : list Z)
    (r : Z) (s' : state) :
  main fuel (initial_state mem typed arriving) = Ok (r, s') ->
  r = 0 /\
  exists s, s' = emit [report s] s /\
            (yourHits s = totalHits \/ enemyHits s = totalHits) /\
            counters_bounded s.
Proof.
  intros H. rewrite main_unfold in H.
  destruct (main_setup fuel _) as [[t0 s0]| | |] eqn:Hsetup; try discriminate.
  destruct (main_loop fuel t0 s0) as [[[] s1]| | |] eqn:Hloop; try discriminate.
  injection H as <- <-.
  split; [reflexivity|]. exists s1. split; [reflexivity|].
  destruct (main_loop_reaches _ _ _ _ Hloop) as [Hover [t' Hreach]].
  split; [apply game_over_true, Hover|].
  exact (setup_reachable_bounded _ _ _ _ _ _ _ Hsetup Hreach).
Qed.

(** ** More fuel never changes a result *)

Lemma ok_le_refl {A} (m : M A) : ok_le m m.
Proof. intros s r H. exact H. Qed.

Lemma ok_le_out_of_fuel {A} (m : M A) : ok_le out_of_fuel m.
Proof. intros s r H. discriminate. Qed.

Lemma ok_le_bind {A B} (m m' : M A) (k k' : A -> M B) :
  ok_le m m' -> (forall a, ok_le (k a) (k' a)) ->
  ok_le (bind m k) (bind m' k').
Proof.
  intros Hm Hk s r H. unfold bind in *.
  destruct (m s) as [[a s1]| | |] eqn:E; try discriminate.
  rewrite (Hm _ _ E). apply Hk, H.
Qed.

Lemma ok_le_if {A} (b : bool) (m1 m1' m2 m2' : M A) :
  ok_le m1 m1' -> ok_le m2 m2' ->
  ok_le (if b then m1 else m2) (if b then m1' else m2').
Proof. destruct b; intros; assumption. Qed.

Lemma read_orientation_mono (f : nat) :
  forall f', (f <= f')%nat -> ok_le (read_orientation f) (read_orientation f').
Proof.
  induction f as [|f IH]; intros f' Hle; [apply ok_le_out_of_fuel|].
  destruct f' as [|f']; [lia|]. cbn [read_orientation].
  apply ok_le_bind; [apply ok_le_refl|]. intros c.
  apply ok_le_bind; [apply ok_le_refl|]. intros _.
  apply ok_le_if; [apply ok_le_refl | apply IH; lia].
Qed.

Lemma place_ship_mono (i : Z) (f : nat) :
  forall f', (f <= f')%nat -> ok_le (place_ship f i) (place_ship f' i).
Proof.
  induction f as [|f IH]; intros f' Hle; [apply ok_le_out_of_fuel|].
  destruct f' as [|f']; [lia|]. cbn [place_ship].
  apply ok_le_bind; [apply ok_le_refl|]. intros c0.
  apply ok_le_bind; [apply ok_le_refl|]. intros c1.
  apply ok_le_bind; [apply ok_le_refl|]. intros _.
  apply ok_le_bind; [apply read_orientation_mono; lia|]. intros o.
  apply ok_le_bind; [apply ok_le_refl|]. intros check.
  apply ok_le_if; [apply ok_le_refl | apply IH; lia].
Qed.

Lemma setUpBoats_loop_mono (f f' : nat) (n : nat) :
  (f <= f')%nat ->
  forall i, ok_le (setUpBoats_loop f n i) (setUpBoats_loop f' n i).
Proof.
  intros Hle. induction n as [|n IH]; intros i; [apply ok_le_refl|].
  cbn [setUpBoats_loop].
  apply ok_le_bind; [apply place_ship_mono, Hle|]. intros _. apply IH.
Qed.

Lemma main_setup_mono (f f' : nat) :
  (f <= f')%nat -> ok_le (main_setup f) (main_setup f').
Proof.
  intros Hle. unfold main_setup.
  apply ok_le_bind; [apply ok_le_refl|]. intros _.
  apply ok_le_bind; [apply ok_le_refl|]. intros _.
  apply ok_le_bind; [apply setUpBoats_loop_mono, Hle|]. intros _.
  apply ok_le_refl.
Qed.

Lemma fire_prompt_mono (f : nat) :
  forall f', (f <= f')%nat -> ok_le (fire_prompt f) (fire_prompt f').
Proof.
  induction f as [|f IH]; intros f' Hle; [apply ok_le_out_of_fuel|].
  destruct f' as [|f']; [lia|]. cbn [fire_prompt].
  apply ok_le_bind; [apply ok_le_refl|]. intros _.
  apply ok_le_bind; [apply ok_le_refl|]. intros _.
  apply ok_le_bind; [apply ok_le_refl|]. intros x.
  apply ok_le_bind; [apply ok_le_refl|]. intros y.
  apply ok_le_bind; [apply ok_le_refl|]. intros c.
  apply ok_le_if; [apply ok_le_refl | apply IH; lia].
Qed.

Lemma turn_mono (f f' : nat) (yourTurn : Z) :
  (f <= f')%nat -> ok_le (turn f yourTurn) (turn f' yourTurn).
Proof.
  intros Hle. unfold turn. apply ok_le_if; [apply ok_le_refl|].
  apply ok_le_bind; [|intros; apply ok_le_refl].
  unfold local_turn.
  apply ok_le_bind; [apply fire_prompt_mono, Hle | intros; apply ok_le_refl].
Qed.

(** ** The turn loop runs the turns and stops at the first state in which
       the game is over *)

Lemma main_loop_runs (start p : Z * state) :
  loop_reachable start p ->
  forall (s_end : state) (fuel1 : nat),
    (forall fuel, (fuel1 <= fuel)%nat ->
       main_loop fuel (fst p) (snd p) = Ok (tt, s_end)) ->
    exists fuel0, forall fuel, (fuel0 <= fuel)%nat ->
      main_loop fuel (fst start) (snd start) = Ok (tt, s_end).
Proof.
  intros Hreach.
  induction Hreach as [|f t s t' s' _ IH Hgo Hturn]; intros s_end fuel1 Hrest.
  - exists fuel1. exact Hrest.
  - cbn [fst snd] in *. apply (IH s_end (S (Nat.max f fuel1))).
    intros fuel Hfuel. destruct fuel as [|k]; [lia|].
    cbn [main_loop]. rewrite Hgo. unfold bind.
    rewrite (turn_mono f (S k) t ltac:(lia) _ _ Hturn).
    apply Hrest. lia.
Qed.

Lemma loop_reachable_over (t : Z) (s : state) (p : Z * state) :
  game_over s = true -> loop_reachable (t, s) p -> p = (t, s).
Proof.
  intros Hover Hp. induction Hp as [|fuel' t1 s1 t' s' Hp IH Hgo Hturn].
  - reflexivity.
  - injection IH as -> ->. rewrite Hover in Hgo. discriminate.
Qed.

Lemma report_verdict (s : state) : report s = verdict s.
Proof.
  unfold verdict. destruct (decide (yourHits s = totalHits)) as [H|H].
  - apply report_win, H.
  - apply report_lose, H.
Qed.

(** [main] returns from every state of the loop in which the game is over,
    given fuel for the prompts on the way. *)
Lemma main_returns_at_game_over
    (fuel : nat) (mem : gmap Z Z) (typed arriving : list Z)
    (yourTurn0 : Z) (s0 : state) (yourTurn : Z) (s : state) :
  main_setup fuel (initial_state mem typed arriving) = Ok (yourTurn0, s0) ->
  loop_reachable (yourTurn0, s0) (yourTurn, s) ->
  game_over s = true ->
  exists fuel0, forall fuel', (fuel0 <= fuel')%nat ->
    main fuel' (initial_state mem typed arriving) = Ok (0, emit [verdict s] s).
Proof.
  intros Hsetup Hreach Hover.
  destruct (main_loop_runs _ _ Hreach s 1%nat) as [fuel0 Hloop].
  { intros k Hk. destruct k as [|k]; [lia|]. apply main_loop_game_over, Hover. }
  cbn [fst snd] in Hloop.
  exists (Nat.max fuel fuel0). intros fuel' Hfuel.
  rewrite main_unfold.
  rewrite (main_setup_mono fuel fuel' ltac:(lia) _ _ Hsetup).
  rewrite Hloop by lia. rewrite report_verdict. reflexivity.
Qed.

(** C8: [totalHits] is the sum 3 + 4 = 7 of the ship lengths.  After the
    setup of [main], in every state the turn loop reaches, [yourHits] and
    [enemyHits] are at most [totalHits].  From a state of the loop in which
    one of them equals [totalHits] no further turn is taken: [main] prints
    the verdict on that very state and returns 0, the win message exactly
    when [yourHits] equals [totalHits] and the loss message otherwise.  And
    [main] returns in no other way: whenever it returns, it has left the
    loop in such a state. *)
Theorem counters_bounded_game_ends
    (fuel : nat) (mem : gmap Z Z) (typed arriving : list Z)
    (yourTurn0 : Z) (s0 : state) :
  main_setup fuel (initial_state mem typed arriving) = Ok (yourTurn0, s0) ->
  (totalHits = SMALL_SHIP_LENGTH + LARGE_SHIP_LENGTH /\ totalHits = 7) /\
  (forall yourTurn s,
     loop_reachable (yourTurn0, s0) (yourTurn, s) ->
     0 <= yourHits s <= totalHits /\ 0 <= enemyHits s <= totalHits) /\
  (forall yourTurn s,
     loop_reachable (yourTurn0, s0) (yourTurn, s) ->
     yourHits s = totalHits \/ enemyHits s = totalHits ->
     (forall p, loop_reachable (yourTurn, s) p -> p = (yourTurn, s)) /\
     (exists fuel0, forall fuel', (fuel0 <= fuel')%nat ->
        main fuel' (initial_state mem typed arriving) =
          Ok (0, emit [if decide (yourHits s = totalHits)
                       then PrintYouWin else PrintYouLose] s))) /\
  (forall r s',
     main fuel (initial_state mem typed arriving) = Ok (r, s') ->
     r = 0 /\
     exists yourTurn s,
       loop_reachable (yourTurn0, s0) (yourTurn, s) /\
       (yourHits s = totalHits \/ enemyHits s = totalHits) /\
       s' = emit [if decide (yourHits s = totalHits)
                  then PrintYouWin else PrintYouLose] s).
Proof.
  intros Hsetup.
  split; [split; reflexivity|].
  split.
  { intros t s Hreach.
    exact (setup_reachable_bounded _ _ _ _ _ _ _ Hsetup Hreach). }
  split.
  { intros t s Hreach Hend. apply game_over_true in Hend. split.
    - intros p Hp. exact (loop_reachable_over _ _ _ Hend Hp).
    - exact (main_returns_at_game_over _ _ _ _ _ _ _ _ Hsetup Hreach Hend). }
  intros r s' Hmain. rewrite main_unfold, Hsetup in Hmain.
  destruct (main_loop fuel yourTurn0 s0) as [[[] s1]| | |] eqn:Hloop;
    try discriminate.
  injection Hmain as <- <-. split; [reflexivity|].
  destruct (main_loop_reaches _ _ _ _ Hloop) as [Hover [t' Hreach]].
  exists t', s1. split; [exact Hreach|].
  split; [apply game_over_true, Hover|].
  rewrite report_verdict. reflexivity.
Qed.

Lemma counters_bounded_game_ends_witness :
  exists t0 s0 s',
    main_setup 20 (initial_state ∅ won_game_typed won_game_arriving) = Ok (t0, s0) /\
    main 20 (initial_state ∅ won_game_typed won_game_arriving) = Ok (0, s') /\
    yourHits s' = totalHits /\
    last (trace s') = Some PrintYouWin /\
    exists t s,
      loop_reachable (t0, s0) (t, s) /\
      (yourHits s = totalHits \/ enemyHits s = totalHits) /\
      s' = emit [if decide (yourHits s = totalHits)
                 then PrintYouWin else PrintYouLose] s.
Proof.
  eexists _, _, _.
  match goal with
  | |- ?A /\ ?B /\ ?C /\ ?D /\ _ =>
      assert (HA : A) by run; assert (HB : B) by run;
      assert (HC : C) by run; assert (HD : D) by run
  end.
  split; [exact HA|]. split; [exact HB|]. split; [exact HC|]. split; [exact HD|].
  destruct (counters_bounded_game_ends _ _ _ _ _ _ HA) as (_ & _ & _ & Hret).
  exact (proj2 (Hret _ _ HB)).
Defined.

(** ** Placement of a ship whose cells have a column in 1..8 *)


Lemma checkMove_or_checkIndex_column_in_board (x y base : Z) (s : state) :
  1 <= x <= 8 -> 1 <= y -> 0 <= base -> base + y <= 256 ->
  checkMove_or_checkIndex x y base s =
    Ok (if cell (sram s) base x y then 1 else if y <=? 8 then 0 else 1, s).
Proof.
  intros Hx Hy Hb Hlim. unfold checkMove_or_checkIndex.
  erewrite bind_of_Ok by (apply checkMove_cell; assumption).
  destruct (cell (sram s) base x y); cbn [Z.b2z Z.eqb]; [reflexivity|].
  unfold ret. do 2 f_equal.
  pose proof (checkIndex_spec x y) as Hspec.
  destruct (checkIndex_0_or_1 x y) as [H0|H1].
  - rewrite H0. cbn [Z.eqb]. destruct (Z.leb_spec y 8); [reflexivity|].
    apply Hspec in H0; lia.
  - rewrite H1. cbn [Z.eqb]. destruct (Z.leb_spec y 8); [|reflexivity].
    assert (checkIndex x y = 0) by (apply Hspec; lia). lia.
Qed.

Lemma check_cells_step (o x y : Z) (j : nat) :
  check_cells o x y (S j) =
    (let! check :=
       checkMove_or_checkIndex (fst (ship_cell o x y (Z.of_nat j)))
                               (snd (ship_cell o x y (Z.of_nat j))) boardBase in
     if check =? 0 then check_cells o x y j
     else let! _ := modify (emit [PrintOffMapOrTaken]) in ret check).
Proof.
  cbn [check_cells]. unfold ship_cell. destruct (o =? 118); reflexivity.
Qed.

(** The check of a placement accepts it exactly when every cell is in a
    row up to 8 and free; a rejection prints the message; the store is only
    read. *)
Lemma check_cells_spec (o x y : Z) (n : nat) (s : state) :
  (forall j, 0 <= j < Z.of_nat n ->
     1 <= fst (ship_cell o x y j) <= 8 /\
     1 <= snd (ship_cell o x y j) <= 200) ->
  exists c,
    check_cells o x y n s =
      Ok (c, if c =? 0 then s else emit [PrintOffMapOrTaken] s) /\
    (c = 0 <->
     forall j, 0 <= j < Z.of_nat n ->
       snd (ship_cell o x y j) <= 8 /\
       cell (sram s) boardBase (fst (ship_cell o x y j))
                               (snd (ship_cell o x y j)) = false).
Proof.
  induction n as [|n IH]; intros Hcells.
  - exists 0. split; [reflexivity|]. split; [intros _ j Hj; lia | reflexivity].
  - destruct (Hcells (Z.of_nat n)) as [Hcx Hcy]; [lia|].
    rewrite check_cells_step.
    set (cx := fst (ship_cell o x y (Z.of_nat n))) in *.
    set (cy := snd (ship_cell o x y (Z.of_nat n))) in *.
    erewrite bind_of_Ok
      by (apply checkMove_or_checkIndex_column_in_board; unfold boardBase; lia).
    destruct (cell (sram s) boardBase cx cy) eqn:Hcell.
    + exists 1. split; [reflexivity|]. split; [discriminate|].
      intros Hall. destruct (Hall (Z.of_nat n)) as [_ Hfree]; [lia|].
      fold cx cy in Hfree. congruence.
    + destruct (Z.leb_spec cy 8) as [Hrow|Hrow].
      * cbn [Z.eqb]. destruct IH as (c & Hrun & Hiff).
        { intros j Hj. apply Hcells. lia. }
        exists c. split; [exact Hrun|]. rewrite Hiff. split.
        -- intros Hall j Hj. destruct (Z.eq_dec j (Z.of_nat n)) as [->|Hne].
           ++ fold cx cy. split; assumption.
           ++ apply Hall. lia.
        -- intros Hall j Hj. apply Hall. lia.
      * exists 1. split; [reflexivity|]. split; [discriminate|].
        intros Hall. destruct (Hall (Z.of_nat n)) as [Hle _]; [lia|].
        fold cy in Hle. lia.
Qed.

Lemma byte_at_insert_ne mem a a' v : a <> a' -> byte_at (<[a := v]> mem) a' = byte_at mem a'.
Proof. intros Hne. unfold byte_at. rewrite lookup_insert_ne by exact Hne. reflexivity. Qed.

(** Reading a cell back after another one has been set. *)
Lemma cell_after_set (mem : gmap Z Z) (base x y x' y' : Z) :
  1 <= x <= 8 -> 1 <= x' <= 8 ->
  cell (<[base + y - 1 := Z.lor (byte_at mem (base + y - 1)) (2 ^ (8 - x))]> mem)
       base x' y' = true <->
  cell mem base x' y' = true \/ (x' = x /\ y' = y).
Proof.
  intros Hx Hx'. unfold cell, BOARD_WIDTH.
  destruct (Z.eq_dec y' y) as [->|Hy].
  - rewrite byte_at_insert_eq.
    rewrite to_uchar_lor by (apply byte_at_range || apply pow2_byte; lia).
    rewrite Z.lor_spec, Z.pow2_bits_eqb by lia.
    rewrite orb_true_iff, Z.eqb_eq. split; (intros [H|H]; [left; exact H | right; lia]).
  - rewrite byte_at_insert_ne by lia. split; [auto|]. intros [H|[_ H]]; [exact H | contradiction].
Qed.

Lemma mark_cells_step (o x y : Z) (j : nat) :
  mark_cells o x y (S j) =
    (let! _ := setIndexHigh (fst (ship_cell o x y (Z.of_nat j)))
                            (snd (ship_cell o x y (Z.of_nat j))) boardBase in
     mark_cells o x y j).
Proof.
  cbn [mark_cells]. unfold ship_cell. destruct (o =? 118); reflexivity.
Qed.

(** Marking a ship whose cells are all on the board sets exactly its cells
    on the ships board and changes nothing else. *)
Lemma mark_cells_spec (o x y : Z) (n : nat) :
  forall s : state,
  (forall j, 0 <= j < Z.of_nat n ->
     1 <= fst (ship_cell o x y j) <= 8 /\
     1 <= snd (ship_cell o x y j) <= 8) ->
  exists mem',
    mark_cells o x y n s = Ok (tt, set_sram mem' s) /\
    (forall a, ~ (boardBase <= a < boardBase + 8) -> mem' !! a = sram s !! a) /\
    (forall cx cy, 1 <= cx <= 8 -> 1 <= cy <= 8 ->
       (cell mem' boardBase cx cy = true <->
        cell (sram s) boardBase cx cy = true \/
        exists j, 0 <= j < Z.of_nat n /\ ship_cell o x y j = (cx, cy))).
Proof.
  induction n as [|n IH]; intros s Hcells.
  - exists (sram s). split; [|split].
    + assert (Heta : set_sram (sram s) s = s) by (apply state_eq; reflexivity).
      rewrite Heta. reflexivity.
    + reflexivity.
    + intros cx cy _ _. split; [auto|]. intros [H|(j & Hj & _)]; [exact H | lia].
  - destruct (Hcells (Z.of_nat n)) as [Hcx Hcy]; [lia|].
    rewrite mark_cells_step.
    destruct (ship_cell o x y (Z.of_nat n)) as [sx sy] eqn:Hship.
    cbn [fst snd] in *.
    erewrite bind_of_Ok by (apply setIndexHigh_store; unfold boardBase; lia).
    set (mem1 := <[boardBase + sy - 1 :=
                     Z.lor (byte_at (sram s) (boardBase + sy - 1)) (2 ^ (8 - sx))]>
                   (sram s)).
    destruct (IH (set_sram mem1 s)) as (mem' & Hrun & Hframe & Hcell).
    { intros j Hj. apply Hcells. lia. }
    exists mem'. split; [|split].
    + rewrite Hrun.
      assert (Hset : set_sram mem' (set_sram mem1 s) = set_sram mem' s)
        by (apply state_eq; reflexivity).
      rewrite Hset. reflexivity.
    + intros a Ha. rewrite Hframe by exact Ha. cbn [sram set_sram].
      unfold mem1. apply lookup_insert_ne. unfold boardBase in *. lia.
    + intros cx cy Hx Hy. rewrite Hcell by assumption. cbn [sram set_sram].
      unfold mem1. rewrite cell_after_set by lia. split.
      * intros [[H|[-> ->]]|(j & Hj & Hjc)].
        -- left. exact H.
        -- right. exists (Z.of_nat n). split; [lia | exact Hship].
        -- right. exists j. split; [lia | exact Hjc].
      * intros [H|(j & Hj & Hjc)]; [left; left; exact H|].
        destruct (Z.eq_dec j (Z.of_nat n)) as [->|Hne].
        -- left. right. rewrite Hship in Hjc. injection Hjc as -> ->. split; reflexivity.
        -- right. exists j. split; [lia | exact Hjc].
Qed.


(** A placement whose cells all have a column in 1..8 is accepted exactly
    when its cells are on the board and free, and is then marked cell by
    cell on the ships board, nothing else being changed. *)
Lemma placement_inside_columns (o x y : Z) (n : nat) (s : state) :
  (forall j, 0 <= j < Z.of_nat n ->
     1 <= fst (ship_cell o x y j) <= 8 /\
     1 <= snd (ship_cell o x y j) <= 200) ->
  exists c s1,
    check_cells o x y n s = Ok (c, s1) /\
    sram s1 = sram s /\
    (c = 0 <->
     forall j, 0 <= j < Z.of_nat n ->
       snd (ship_cell o x y j) <= 8 /\
       cell (sram s) boardBase (fst (ship_cell o x y j))
                               (snd (ship_cell o x y j)) = false) /\
    (c = 0 ->
     exists mem',
       mark_cells o x y n s1 = Ok (tt, set_sram mem' s1) /\
       (forall a, ~ (boardBase <= a < boardBase + 8) -> mem' !! a = sram s !! a) /\
       (forall cx cy, 1 <= cx <= 8 -> 1 <= cy <= 8 ->
          (cell mem' boardBase cx cy = true <->
           cell (sram s) boardBase cx cy = true \/
           exists j, 0 <= j < Z.of_nat n /\ ship_cell o x y j = (cx, cy)))).
Proof.
  intros Hcells.
  destruct (check_cells_spec o x y n s Hcells) as (c & Hrun & Hiff).
  exists c, (if c =? 0 then s else emit [PrintOffMapOrTaken] s).
  split; [exact Hrun|].
  split; [destruct (c =? 0); reflexivity|].
  split; [exact Hiff|].
  intros ->. cbn [Z.eqb]. apply mark_cells_spec.
  intros j Hj. destruct (Hcells j Hj) as [Hcol [Hrow _]].
  destruct (proj1 Hiff eq_refl j Hj) as [Hrow8 _]. lia.
Qed.

(** ** The boards through a turn played inside the board *)

Lemma checkMove_pure (x y base : Z) (s : state) (r : Z) (s' : state) :
  checkMove x y base s = Ok (r, s') -> s' = s.
Proof.
  unfold checkMove, bind, readSRAM, ret, undefined.
  destruct (_ <? 32); [|discriminate]. intros H. injection H as _ <-. reflexivity.
Qed.

Lemma checkMove_or_checkIndex_pure (x y base : Z) (s : state) (r : Z) (s' : state) :
  checkMove_or_checkIndex x y base s = Ok (r, s') -> s' = s.
Proof.
  unfold checkMove_or_checkIndex. intros H. bind_inv H as taken s1 H1.
  apply checkMove_pure in H1 as ->.
  destruct (taken =? 0); injection H as _ <-; reflexivity.
Qed.

Lemma fire_prompt_sram (fuel : nat) :
  forall s s', fire_prompt fuel s = Ok (tt, s') -> sram s' = sram s.
Proof.
  induction fuel as [|fuel IH]; intros s s' H; [discriminate|].
  cbn [fire_prompt] in H.
  bind_inv H as [] s1 H1. unfold enterString in H1.
  destruct (enterString_loop _ _ _) as [[buf rest]| | |]; try discriminate.
  injection H1 as <-.
  bind_inv H as [] s2 H2. unfold translateOutputBuffer in H2.
  destruct (load_buf 0 _); try discriminate.
  destruct (load_buf 1 _); try discriminate.
  injection H2 as <-.
  bind_inv H as x s3 H3. injection H3 as _ <-.
  bind_inv H as y s4 H4. injection H4 as _ <-.
  bind_inv H as notValid s5 H5. apply checkMove_or_checkIndex_pure in H5 as ->.
  destruct (notValid =? 0).
  - injection H as <-. reflexivity.
  - rewrite (IH _ _ H). reflexivity.
Qed.

Lemma sending_only_refl (s : state) : sending_only s s.
Proof. unfold sending_only. repeat split; reflexivity. Qed.

Lemma sending_only_trans (s1 s2 s3 : state) :
  sending_only s1 s2 -> sending_only s2 s3 -> sending_only s1 s3.
Proof.
  unfold sending_only. intros H1 H2.
  destruct H1 as (?&?&?&?&?&?&?&?&?&?&?), H2 as (?&?&?&?&?&?&?&?&?&?&?).
  repeat split; congruence.
Qed.

Lemma sendString_loop_sending_only (n : nat) :
  forall i s s', sendString_loop n i s = Ok (tt, s') -> sending_only s s'.
Proof.
  induction n as [|n IH]; intros i s s' H; cbn [sendString_loop] in H.
  - injection H as <-. apply sending_only_refl.
  - bind_inv H as c s1 H1. unfold lift in H1.
    destruct (load_buf i (outputBuffer s)); try discriminate.
    injection H1 as -> <-.
    bind_inv H as [] s2 H2. rewrite sendChar_after_send in H2. injection H2 as <-.
    assert (Hstep : sending_only s (after_send c (send_events c) s)).
    { unfold sending_only, after_send. repeat split; reflexivity. }
    destruct (c =? 0).
    + injection H as <-. exact Hstep.
    + eapply sending_only_trans; [exact Hstep | exact (IH _ _ _ H)].
Qed.

Lemma readString_loop_reception_only (frames : list Z) :
  forall i s r s', readString_loop frames i s = Ok (r, s') -> reception_only s s'.
Proof.
  induction frames as [|f rest IH]; intros i s r s' H; [discriminate|].
  rewrite readString_loop_unfold in H.
  destruct (parity_ok f).
  - destruct (store_buf _ _ _); try discriminate.
    destruct (frame_data f =? 0).
    + injection H as _ <-. apply reception_only_after_frame.
    + eapply reception_only_trans; [|exact (IH _ _ _ _ H)].
      apply reception_only_after_frame.
  - injection H as _ <-. apply reception_only_after_bad_frame.
Qed.

Lemma cell_other_row (mem : gmap Z Z) (a v base x y : Z) :
  a <> base + y - 1 -> cell (<[a := v]> mem) base x y = cell mem base x y.
Proof.
  intros Hne. unfold cell, byte_at. rewrite lookup_insert_ne by exact Hne. reflexivity.
Qed.

Lemma updateEnemyBoard_shape (board : Z) (s s' : state) :
  updateEnemyBoard board s = Ok (tt, s') -> exists mem, s' = set_sram mem s.
Proof.
  unfold updateEnemyBoard. intros H.
  bind_inv H as y s1 H1. injection H1 as _ <-.
  bind_inv H as x s2 H2. injection H2 as _ <-.
  bind_inv H as row s3 H3. injection H3 as _ <-.
  bind_inv H as mask s4 H4. unfold lift in H4.
  destruct (createByte x); try discriminate. injection H4 as _ <-.
  injection H as <-. eexists. reflexivity.
Qed.

(** A local turn whose shot has its column and its row in 1..8 adds the
    shot to the shots board, adds at most the same cell to the hits board,
    and leaves every other byte of the store alone. *)
Lemma local_turn_boards (fuel : nat) (s s' : state) :
  local_turn fuel s = Ok (tt, s') ->
  1 <= yourShotX s' <= 8 -> 1 <= yourShotY s' <= 8 ->
  (forall a, a <> shotsBase + yourShotY s' - 1 ->
             a <> hitsBase + yourShotY s' - 1 -> sram s' !! a = sram s !! a) /\
  (forall cx cy, 1 <= cx <= 8 -> 1 <= cy <= 8 ->
     (cell (sram s') shotsBase cx cy = true <->
      cell (sram s) shotsBase cx cy = true \/
      (cx = yourShotX s' /\ cy = yourShotY s'))) /\
  (forall cx cy, 1 <= cx <= 8 -> 1 <= cy <= 8 ->
     cell (sram s) hitsBase cx cy = true -> cell (sram s') hitsBase cx cy = true) /\
  (forall cx cy, 1 <= cx <= 8 -> 1 <= cy <= 8 ->
     cell (sram s') hitsBase cx cy = true ->
     cell (sram s) hitsBase cx cy = true \/
     (cx = yourShotX s' /\ cy = yourShotY s')).
Proof.
  unfold local_turn. intros H Hx Hy.
  bind_inv H as [] s1 H1. apply fire_prompt_sram in H1.
  bind_inv H as [] s2 H2. apply sendString_loop_sending_only in H2.
  destruct H2 as (_&_&_&_&_&_&_&_&Hmem2&_).
  bind_inv H as r s3 H3. apply readString_loop_reception_only in H3.
  destruct H3 as (_&_&_&_&_&_&_&_&Hmem3&_).
  assert (Hmem : sram s3 = sram s) by congruence. clear H1 Hmem2 Hmem3.
  bind_inv H as [] s4 H4. destruct (updateEnemyBoard_shape _ _ _ H4) as [m1 ->].
  bind_inv H as [] s5 H5. unfold translateInputBuffer in H5.
  destruct (load_buf 0 _); try discriminate.
  destruct (load_buf 1 _); try discriminate.
  injection H5 as <-.
  bind_inv H as c0 s6 H6. unfold lift in H6.
  destruct (load_buf 0 _); try discriminate. injection H6 as _ <-.
  set (x := yourShotX s3). set (y := yourShotY s3).
  assert (Hshot : forall s'', s' = s'' -> yourShotX s'' = x -> yourShotY s'' = y ->
                   1 <= x <= 8 /\ 1 <= y <= 8 /\ yourShotX s' = x /\ yourShotY s' = y).
  { intros s'' -> Hx'' Hy''. rewrite Hx'', Hy'' in *. auto. }
  destruct (charToInt c0 =? 0).
  - injection H as <-.
    destruct (Hshot _ eq_refl eq_refl eq_refl) as (Hx3 & Hy3 & Hxe & Hye).
    rewrite updateEnemyBoard_store in H4 by (fold x y; unfold shotsBase; lia).
    injection H4 as Hm1.
    rewrite Hxe, Hye. cbn [sram set_theirShot set_sram]. rewrite <- Hm1, Hmem.
    fold x y. clear Hshot Hm1.
    split; [|split; [|split]].
    + intros addr Ha _. apply lookup_insert_ne. congruence.
    + intros cx cy Hcx Hcy. apply cell_after_set; lia.
    + intros cx cy Hcx Hcy Hhit. rewrite cell_other_row; [exact Hhit|].
      unfold shotsBase, hitsBase. lia.
    + intros cx cy Hcx Hcy Hhit. left. rewrite cell_other_row in Hhit; [exact Hhit|].
      unfold shotsBase, hitsBase. lia.
  - bind_inv H as [] s7 H7. injection H as <-.
    destruct (updateEnemyBoard_shape _ _ _ H7) as [m2 ->].
    destruct (Hshot _ eq_refl eq_refl eq_refl) as (Hx3 & Hy3 & Hxe & Hye).
    rewrite updateEnemyBoard_store in H4 by (fold x y; unfold shotsBase; lia).
    injection H4 as Hm1.
    rewrite updateEnemyBoard_store in H7
      by (cbn [yourShotX yourShotY set_theirShot set_sram]; fold x y;
          unfold hitsBase; lia).
    injection H7 as Hm2.
    cbn [sram set_sram set_theirShot yourShotX yourShotY] in Hm2. fold x y in Hm2.
    rewrite Hxe, Hye. cbn [sram set_yourHits set_sram]. rewrite <- Hm2, <- Hm1, Hmem.
    fold x y. clear Hshot Hm1 Hm2.
    split; [|split; [|split]].
    + intros addr Ha1 Ha2. rewrite !lookup_insert_ne by congruence. reflexivity.
    + intros cx cy Hcx Hcy. rewrite cell_other_row by (unfold shotsBase, hitsBase; lia).
      apply cell_after_set; lia.
    + intros cx cy Hcx Hcy Hhit. apply cell_after_set; [lia | lia |]. left.
      rewrite cell_other_row; [exact Hhit | unfold shotsBase, hitsBase; lia].
    + intros cx cy Hcx Hcy Hhit. apply cell_after_set in Hhit; [|lia|lia].
      destruct Hhit as [Hhit|Hhit]; [left|right; exact Hhit].
      rewrite cell_other_row in Hhit; [exact Hhit | unfold shotsBase, hitsBase; lia].
Qed.


Lemma cell_after_clear (mem : gmap Z Z) (base x y x' y' : Z) :
  1 <= x <= 8 -> 1 <= x' <= 8 ->
  cell (<[base + y - 1 :=
            Z.land (Z.lnot (2 ^ (8 - x))) (byte_at mem (base + y - 1))]> mem)
       base x' y' = true <->
  cell mem base x' y' = true /\ ~ (x' = x /\ y' = y).
Proof.
  intros Hx Hx'. unfold cell, BOARD_WIDTH.
  destruct (Z.eq_dec y' y) as [->|Hy].
  - rewrite byte_at_insert_eq.
    rewrite to_uchar_land_r by apply byte_at_range.
    rewrite Z.land_spec, Z.lnot_spec, Z.pow2_bits_eqb by lia.
    rewrite andb_true_iff, negb_true_iff, Z.eqb_neq. split.
    + intros [Hne Hbit]. split; [exact Hbit | lia].
    + intros [Hbit Hne]. split; [lia | exact Hbit].
  - rewrite byte_at_insert_ne by lia. split; [|tauto].
    intros H. split; [exact H | lia].
Qed.





(** A game played to the end: the seventh hit ends the loop and the win is
    reported; nothing typed or received is left over. *)
Example won_game :
  exists s',
    main 20 (initial_state ∅ won_game_typed won_game_arriving) = Ok (0, s') /\
    yourHits s' = 7 /\ enemyHits s' = 0 /\
    last (trace s') = Some PrintYouWin /\
    console s' = [] /\ link_in s' = [].
Proof. eexists. runs. Qed.


(** * Further properties of the code *)

(** ** Bounds check, decoding and masks *)

(** X1: whether the arguments come as [int] or as [unsigned int] (as [main]
    passes them), [checkIndex] returns 0 exactly when both lie in 0..8, and 1
    otherwise. *)
Theorem checkIndex_accepts_exactly_0_to_8 (x y : Z) :
  - 2 ^ 31 <= x < 2 ^ 32 -> - 2 ^ 31 <= y < 2 ^ 32 ->
  (checkIndex x y = 0 <-> 0 <= x <= 8 /\ 0 <= y <= 8) /\
  (checkIndex x y = 1 <-> ~ (0 <= x <= 8 /\ 0 <= y <= 8)).
Proof.
  intros Hx Hy.
  assert (Hint : forall z, - 2 ^ 31 <= z < 2 ^ 32 ->
            - 2 ^ 31 <= to_int z < 2 ^ 31 /\ (0 <= to_int z <= 8 <-> 0 <= z <= 8)).
  { intros z Hz. unfold to_int.
    destruct (Z_lt_ge_dec z (2 ^ 31)) as [Hlt|Hge].
    - rewrite Z.mod_small by lia. lia.
    - replace (z + 2 ^ 31) with ((z - 2 ^ 31) + 1 * 2 ^ 32) by lia.
      rewrite Z.mod_add by lia. rewrite Z.mod_small by lia. lia. }
  destruct (Hint x Hx) as [Hxr Hxi], (Hint y Hy) as [Hyr Hyi].
  assert (Hsame : checkIndex x y = checkIndex (to_int x) (to_int y)).
  { unfold checkIndex. rewrite !(to_int_small (to_int _)) by assumption. reflexivity. }
  assert (H0 : checkIndex x y = 0 <-> 0 <= x <= 8 /\ 0 <= y <= 8).
  { rewrite Hsame, checkIndex_spec by assumption. tauto. }
  split; [exact H0|].
  destruct (checkIndex_0_or_1 x y) as [H|H].
  - split; [intros H1; rewrite H in H1; discriminate|].
    intros Hout. exfalso. apply Hout, H0, H.
  - split; [|intros _; exact H].
    intros _ Hin. apply H0 in Hin. rewrite H in Hin. discriminate.
Qed.

Lemma checkIndex_accepts_exactly_0_to_8_witness :
  checkIndex 4294967295 3 = 1 /\ checkIndex 8 0 = 0.
Proof.
  destruct (checkIndex_accepts_exactly_0_to_8 4294967295 3) as [_ H1]; [lia | lia |].
  destruct (checkIndex_accepts_exactly_0_to_8 8 0) as [H0 _]; [lia | lia |].
  split; [apply H1; lia | apply H0; lia].
Defined.

Lemma charToInt_table :
  Forall (fun c => 1 <= charToInt c <= 8 <-> 49 <= c <= 56 \/ 65 <= c <= 72)
         (seqZ 0 256).
Proof. apply (bool_decide_unpack _). vm_compute. exact I. Qed.

(** X2: a character decodes to a coordinate in 1..8 exactly when it is one
    of '1'..'8' or 'A'..'H'; lower-case letters and every other byte decode
    to a value outside the board. *)
Theorem charToInt_on_board_iff (c : Z) :
  0 <= c < 256 ->
  (1 <= charToInt c <= 8 <-> 49 <= c <= 56 \/ 65 <= c <= 72).
Proof.
  intros Hc. apply (Forall_seqZ_elim _ 0 256 c charToInt_table). lia.
Qed.

Lemma charToInt_on_board_iff_witness :
  ~ (1 <= charToInt 97 <= 8) /\ 1 <= charToInt 72 <= 8.
Proof.
  destruct (charToInt_on_board_iff 97) as [H97 _]; [lia|].
  destruct (charToInt_on_board_iff 72) as [_ H72]; [lia|].
  split; [intros H; apply H97 in H; lia | apply H72; lia].
Defined.

Lemma pow2_mod_256 (n : Z) : 8 <= n -> to_uchar (2 ^ n) = 0.
Proof.
  intros Hn. unfold to_uchar.
  replace n with (8 + (n - 8)) by lia. rewrite Z.pow_add_r by lia.
  change (2 ^ 8) with 256. rewrite Z.mul_comm. apply Z.mod_mul. lia.
Qed.

(** X3: [createByte] gives the one-bit mask [2^(8-x)] for a column in 1..8
    (column 1 is the top bit), the empty mask for a column from -22 to 0, and
    is undefined (the shift overflows) for every other [int]. *)
Theorem createByte_mask (x : Z) :
  - 2 ^ 31 <= x < 2 ^ 31 ->
  createByte x =
    if decide (1 <= x <= 8) then Ok (2 ^ (8 - x))
    else if decide (-22 <= x <= 0) then Ok 0
    else Undefined.
Proof.
  intros Hx. unfold createByte, BOARD_WIDTH. rewrite to_int_small by exact Hx.
  destruct (decide (1 <= x <= 8)) as [Hin|Hout].
  - rewrite <- createByte_in_board by exact Hin.
    unfold createByte, BOARD_WIDTH. rewrite to_int_small by exact Hx. reflexivity.
  - destruct (decide (-22 <= x <= 0)) as [Hlow|Hfar].
    + rewrite to_uint_small by lia.
      destruct (Z.ltb_spec (8 - x) 31); [|lia].
      rewrite Z.shiftl_1_l, pow2_mod_256 by lia. reflexivity.
    + destruct (Z_lt_ge_dec x 9) as [Hlt|Hge].
      * rewrite to_uint_small by lia.
        destruct (Z.ltb_spec (8 - x) 31); [lia | reflexivity].
      * unfold to_uint.
        replace (8 - x) with ((8 - x + 2 ^ 32) + (-1) * 2 ^ 32) by lia.
        rewrite Z.mod_add by lia. rewrite Z.mod_small by lia.
        destruct (Z.ltb_spec (8 - x + 2 ^ 32) 31); [lia | reflexivity].
Qed.

Lemma createByte_mask_witness :
  createByte 1 = Ok 128 /\ createByte 0 = Ok 0 /\ createByte 9 = Undefined.
Proof.
  split; [|split].
  - exact (createByte_mask 1 ltac:(lia)).
  - exact (createByte_mask 0 ltac:(lia)).
  - exact (createByte_mask 9 ltac:(lia)).
Defined.

(** X4: [computeParity] returns the exclusive or of the eight bits of the
    byte, 0 or 1, and the result is the same whether plain [char] is signed
    or unsigned. *)
Theorem computeParity_is_xor_of_bits (b : Z) :
  0 <= b < 256 ->
  computeParity b = Z.b2z (parity_of_bits b) /\
  computeParity_unsigned_char b = computeParity b /\
  0 <= computeParity b <= 1.
Proof.
  intros Hb. split; [apply computeParity_xor_fold, Hb|].
  split; [apply computeParity_signedness, Hb|].
  destruct (computeParity_0_or_1 b Hb) as [-> | ->]; lia.
Qed.

Lemma computeParity_is_xor_of_bits_witness :
  computeParity 7 = Z.b2z (parity_of_bits 7).
Proof. exact (proj1 (computeParity_is_xor_of_bits 7 ltac:(lia))). Defined.


(** ** The store *)

(** X5: a byte written to the SRAM is read back from the same address, cut
    to 8 bits, and a read from any other address returns what was there. *)
Theorem writeSRAM_readSRAM (a a' v : Z) (s : state) :
  0 <= a < 256 -> 0 <= a' < 256 ->
  (let! _ := writeSRAM a v in readSRAM a') s =
    Ok (if decide (a' = a) then to_uchar v else byte_at (sram s) a',
        set_sram (<[a := to_uchar v]> (sram s)) s).
Proof.
  intros Ha Ha'. unfold bind, writeSRAM. rewrite sram_address_small by exact Ha.
  rewrite readSRAM_byte_at by exact Ha'. cbn [sram set_sram].
  do 2 f_equal. destruct (decide (a' = a)) as [->|Hne].
  - rewrite byte_at_insert_eq. unfold to_uchar. apply Z.mod_mod. lia.
  - apply byte_at_insert_ne. congruence.
Qed.

Lemma writeSRAM_readSRAM_witness :
  exists s', (let! _ := writeSRAM 5 300 in readSRAM 5) (initial_state ∅ [] []) = Ok (44, s').
Proof.
  eexists. exact (writeSRAM_readSRAM 5 5 300 (initial_state ∅ [] []) ltac:(lia) ltac:(lia)).
Defined.

Lemma eraseSRAM_loop_spec (n : nat) :
  forall (i : Z) (s : state),
    0 <= i -> i + Z.of_nat n <= 256 ->
    exists mem',
      eraseSRAM_loop n i s = Ok (tt, set_sram mem' s) /\
      forall a, byte_at mem' a =
                if decide (i <= a < i + Z.of_nat n) then 0 else byte_at (sram s) a.
Proof.
  induction n as [|n IH]; intros i s Hi Hlim.
  - exists (sram s). split.
    + assert (Heta : set_sram (sram s) s = s) by (apply state_eq; reflexivity).
      rewrite Heta. reflexivity.
    + intros a. rewrite decide_False by lia. reflexivity.
  - cbn [eraseSRAM_loop]. unfold bind at 1, writeSRAM.
    rewrite sram_address_small by lia.
    destruct (IH (i + 1) (set_sram (<[i := to_uchar 0]> (sram s)) s))
      as (mem' & Hrun & Hmem); [lia | lia |].
    exists mem'. split.
    + rewrite Hrun.
      assert (Hset : set_sram mem' (set_sram (<[i := to_uchar 0]> (sram s)) s) =
                     set_sram mem' s) by (apply state_eq; reflexivity).
      rewrite Hset. reflexivity.
    + intros a. rewrite Hmem. cbn [sram set_sram].
      destruct (decide (i + 1 <= a < i + 1 + Z.of_nat n)) as [Hin|Hout].
      * rewrite decide_True by lia. reflexivity.
      * destruct (Z.eq_dec a i) as [->|Hne].
        -- rewrite decide_True by lia. rewrite byte_at_insert_eq. reflexivity.
        -- rewrite decide_False by lia. apply byte_at_insert_ne. congruence.
Qed.

(** X6: [eraseSRAM] always returns; afterwards the bytes at addresses 0..29
    read 0 and every other byte is as before, so the three boards are empty
    and every confirmed hit is (trivially) a shot fired. *)
Theorem eraseSRAM_clears_boards (s : state) :
  exists mem',
    eraseSRAM s = Ok (tt, set_sram mem' s) /\
    (forall a, byte_at mem' a = if decide (0 <= a < 30) then 0 else byte_at (sram s) a) /\
    (forall base x y, base = shotsBase \/ base = hitsBase \/ base = boardBase ->
       1 <= y <= 8 -> cell mem' base x y = false) /\
    hits_within_shots mem'.
Proof.
  destruct (eraseSRAM_loop_spec 30 0 s) as (mem' & Hrun & Hmem); [lia | lia |].
  assert (Hcell : forall base x y,
            base = shotsBase \/ base = hitsBase \/ base = boardBase ->
            1 <= y <= 8 -> cell mem' base x y = false).
  { intros base x y Hbase Hy. unfold cell. rewrite Hmem.
    rewrite decide_True by (unfold shotsBase, hitsBase, boardBase in Hbase; lia).
    apply Z.bits_0. }
  exists mem'. split; [exact Hrun|]. split; [exact Hmem|]. split; [exact Hcell|].
  intros x y Hx Hy Hhit. rewrite Hcell in Hhit by auto. discriminate.
Qed.

(** ** Cells *)

(** X7: on the three boards, a cell set with [setIndexHigh] is found
    occupied by [checkMove], and [checkMove] on any other cell of any board
    answers as it did before. *)
Theorem setIndexHigh_checkMove (x y base x' y' base' : Z) (s : state) :
  1 <= x <= 8 -> 1 <= y <= 8 -> 1 <= x' <= 8 -> 1 <= y' <= 8 ->
  base = shotsBase \/ base = hitsBase \/ base = boardBase ->
  base' = shotsBase \/ base' = hitsBase \/ base' = boardBase ->
  exists s',
    (let! _ := setIndexHigh x y base in checkMove x' y' base') s =
      Ok (if decide (base' = base /\ x' = x /\ y' = y) then 1
          else Z.b2z (cell (sram s) base' x' y'), s') /\
    (let! _ := setIndexHigh x y base in setIndexHigh x y base) s = Ok (tt, s').
Proof.
  intros Hx Hy Hx' Hy' Hb Hb'.
  assert (Hbr : 0 <= base <= 16 /\ 0 <= base' <= 16)
    by (unfold shotsBase, hitsBase, boardBase in *; lia).
  set (mem1 := <[base + y - 1 :=
                   Z.lor (byte_at (sram s) (base + y - 1)) (2 ^ (8 - x))]> (sram s)).
  exists (set_sram mem1 s). split.
  - erewrite bind_of_Ok by (apply setIndexHigh_store; lia).
    rewrite checkMove_cell by lia. fold mem1. cbn [sram set_sram].
    do 2 f_equal.
    destruct (decide (base' = base /\ x' = x /\ y' = y)) as [(-> & -> & ->)|Hne].
    + assert (Hset : cell mem1 base x y = true)
        by (apply cell_after_set; [lia | lia | right; split; reflexivity]).
      rewrite Hset. reflexivity.
    + f_equal. destruct (Z.eq_dec base' base) as [->|Hbase].
      * apply eq_true_iff_eq. unfold mem1. rewrite cell_after_set by lia. tauto.
      * unfold mem1. apply cell_other_row.
        unfold shotsBase, hitsBase, boardBase in *. lia.
  - erewrite bind_of_Ok by (apply setIndexHigh_store; lia).
    rewrite setIndexHigh_store by lia. fold mem1. cbn [sram set_sram].
    do 2 f_equal. apply state_eq; try reflexivity. cbn [sram set_sram].
    apply map_eq. intros a. destruct (Z.eq_dec a (base + y - 1)) as [->|Hne].
    + unfold mem1. rewrite !lookup_insert_eq. f_equal.
      rewrite byte_at_insert_eq.
      rewrite to_uchar_lor by (apply byte_at_range || apply pow2_byte; lia).
      rewrite <- Z.lor_assoc, Z.lor_diag. reflexivity.
    + rewrite lookup_insert_ne by congruence. reflexivity.
Qed.

Lemma setIndexHigh_checkMove_witness :
  exists s',
    (let! _ := setIndexHigh 3 2 boardBase in checkMove 3 2 boardBase)
      (initial_state ∅ [] []) = Ok (1, s').
Proof.
  destruct (setIndexHigh_checkMove 3 2 boardBase 3 2 boardBase (initial_state ∅ [] []))
    as (s' & H & _); try lia.
  exists s'. exact H.
Defined.


(** ** An incoming shot *)

Lemma updateYourBoard_effect (s : state) :
  1 <= theirShotX s <= 8 -> 1 <= theirShotY s <= 8 ->
  exists s',
    updateYourBoard s = Ok (tt, s') /\
    sram s' =
      (if cell (sram s) boardBase (theirShotX s) (theirShotY s)
       then <[boardBase + theirShotY s - 1 :=
                Z.land (Z.lnot (2 ^ (8 - theirShotX s)))
                       (byte_at (sram s) (boardBase + theirShotY s - 1))]> (sram s)
       else sram s) /\
    enemyHits s' =
      (if cell (sram s) boardBase (theirShotX s) (theirShotY s)
       then to_uint (enemyHits s + 1) else enemyHits s) /\
    outputBuffer s' =
      <[1%nat := 0]>
        (<[0%nat := if cell (sram s) boardBase (theirShotX s) (theirShotY s)
                    then 49 else 48]> (outputBuffer s)) /\
    theirShotX s' = theirShotX s /\ theirShotY s' = theirShotY s /\
    yourHits s' = yourHits s /\
    frames_sent (trace s') = frames_sent (trace s).
Proof.
  intros Hx Hy. unfold updateYourBoard, bind, gets, cell, boardBase, BOARD_WIDTH.
  rewrite (to_uint_small (16 + theirShotY s)) by lia.
  rewrite (to_uint_small (16 + theirShotY s - 1)) by lia.
  rewrite (to_uint_small (8 - theirShotX s)) by lia.
  rewrite readSRAM_byte_at by lia.
  destruct (Z.ltb_spec (8 - theirShotX s) 32); [|lia].
  set (byte := byte_at (sram s) (16 + theirShotY s - 1)).
  rewrite land_1_b2z, Z.shiftr_spec, Z.add_0_l by lia.
  destruct (Z.testbit byte (8 - theirShotX s)) eqn:Hbit; cbn [Z.b2z].
  - rewrite to_int_small by lia. cbn [Z.eqb].
    unfold modify, lift. rewrite createByte_in_board by exact Hx.
    unfold writeSRAM. rewrite sram_address_small by lia.
    eexists. split; [reflexivity|]. cbn.
    rewrite to_uchar_land_r by apply byte_at_range.
    rewrite frames_sent_app, app_nil_r.
    repeat split; reflexivity.
  - rewrite to_int_small by lia. cbn [Z.eqb].
    unfold modify. eexists. split; [reflexivity|]. cbn.
    rewrite frames_sent_app, app_nil_r.
    repeat split; reflexivity.
Qed.

Lemma cstring_reply (c : Z) (buf : list Z) :
  c <> 0 -> (2 <= length buf)%nat ->
  cstring (<[1%nat := 0]> (<[0%nat := c]> buf)) = [c].
Proof.
  intros Hc Hlen. destruct buf as [|b0 [|b1 buf]]; cbn [length] in Hlen; try lia.
  cbn. destruct (Z.eqb_spec c 0); [contradiction | reflexivity].
Qed.

(** X8: for an incoming shot with column and row in 1..8, [updateYourBoard]
    answers "1" and counts a hit exactly when the cell holds a ship, "0"
    otherwise; the hit removes the ship bit, so the same shot taken again is
    answered "0" and changes neither the store nor the counter. *)
Theorem updateYourBoard_hits_once (s : state) :
  1 <= theirShotX s <= 8 -> 1 <= theirShotY s <= 8 ->
  (2 <= length (outputBuffer s))%nat ->
  exists s1 s2,
    updateYourBoard s = Ok (tt, s1) /\
    updateYourBoard s1 = Ok (tt, s2) /\
    cstring (outputBuffer s1) =
      [if cell (sram s) boardBase (theirShotX s) (theirShotY s) then 49 else 48] /\
    enemyHits s1 =
      (if cell (sram s) boardBase (theirShotX s) (theirShotY s)
       then to_uint (enemyHits s + 1) else enemyHits s) /\
    cell (sram s1) boardBase (theirShotX s) (theirShotY s) = false /\
    cstring (outputBuffer s2) = [48] /\
    enemyHits s2 = enemyHits s1 /\
    sram s2 = sram s1.
Proof.
  intros Hx Hy Hlen.
  destruct (updateYourBoard_effect s Hx Hy) as (s1 & Hrun1 & Hmem1 & Hhits1 & Hout1 & HX & HY & _).
  assert (Hfree : cell (sram s1) boardBase (theirShotX s) (theirShotY s) = false).
  { rewrite Hmem1. destruct (cell (sram s) boardBase _ _) eqn:Hcell; [|exact Hcell].
    apply not_true_is_false. intros Hset.
    apply cell_after_clear in Hset; [|lia|lia]. destruct Hset as [_ Hne]. tauto. }
  destruct (updateYourBoard_effect s1) as (s2 & Hrun2 & Hmem2 & Hhits2 & Hout2 & _);
    [rewrite HX; exact Hx | rewrite HY; exact Hy |].
  rewrite HX, HY, Hfree in Hmem2, Hhits2, Hout2.
  exists s1, s2. split; [exact Hrun1|]. split; [exact Hrun2|].
  split.
  { rewrite Hout1. apply cstring_reply; [destruct (cell _ _ _ _); lia | exact Hlen]. }
  split; [exact Hhits1|]. split; [exact Hfree|].
  split.
  { rewrite Hout2. apply cstring_reply; [lia|].
    rewrite Hout1, !length_insert. exact Hlen. }
  split; assumption.
Qed.

Lemma updateYourBoard_hits_once_witness :
  exists s1 s2,
    updateYourBoard (set_theirShot 1 1 (set_sram {[boardBase := 128]} (initial_state ∅ [] [])))
      = Ok (tt, s1) /\
    updateYourBoard s1 = Ok (tt, s2) /\
    cstring (outputBuffer s2) = [48].
Proof.
  destruct (updateYourBoard_hits_once
              (set_theirShot 1 1 (set_sram {[boardBase := 128]} (initial_state ∅ [] []))))
    as (s1 & s2 & H1 & H2 & _ & _ & _ & H3 & _);
    [cbn; lia | cbn; lia | cbn; lia |].
  exists s1, s2. repeat split; assumption.
Defined.

(** ** Typing a line *)

Lemma enterString_loop_line (line : list Z) :
  forall (i : nat) (buf rest : list Z),
    Forall (fun c => 0 <= c < 256 /\ c <> 10) line ->
    (i + length line < length buf)%nat ->
    enterString_loop (line ++ 10 :: rest) i buf =
      Ok (take i buf ++ line ++ 0 :: drop (S (i + length line)) buf, rest).
Proof.
  induction line as [|c line IH]; intros i buf rest Hline Hlen.
  - cbn [app length enterString_loop]. change (to_uchar 10 =? 10) with true.
    cbn [length] in Hlen. unfold store_buf. rewrite decide_True by lia.
    rewrite Nat.add_0_r. do 2 f_equal.
    rewrite <- (take_drop i (<[i := 0]> buf)).
    rewrite take_insert_ge by lia. f_equal.
    erewrite drop_S by (apply list_lookup_insert_eq; lia).
    rewrite drop_insert_lt by lia. reflexivity.
  - apply Forall_cons in Hline as [[Hc Hnl] Hline]. cbn [length] in Hlen.
    cbn [app enterString_loop]. rewrite to_uchar_small by exact Hc.
    destruct (Z.eqb_spec c 10); [contradiction|].
    unfold store_buf. rewrite decide_True by lia.
    rewrite IH; [| exact Hline | rewrite length_insert; lia].
    do 2 f_equal.
    erewrite take_S_r by (apply list_lookup_insert_eq; lia).
    rewrite take_insert_ge by lia. rewrite <- app_assoc. cbn [app length].
    rewrite drop_insert_lt by lia.
    replace (S i + length line)%nat with (i + S (length line))%nat by lia.
    reflexivity.
Qed.

(** X9: a typed line of fewer than [bufLen] characters, closed by a newline,
    is copied to the start of [outputBuffer] and terminated; the newline is
    consumed and what is typed after it stays on the console; nothing else
    changes.  A line with no zero byte is then the string the buffer
    holds. *)
Theorem enterString_reads_line (s : state) (line rest : list Z) :
  console s = line ++ 10 :: rest ->
  Forall (fun c => 0 <= c < 256 /\ c <> 10) line ->
  (length line < length (outputBuffer s))%nat ->
  enterString s =
    Ok (tt, set_console rest
              (set_outputBuffer
                 (line ++ 0 :: drop (S (length line)) (outputBuffer s)) s)) /\
  (Forall (fun c => c <> 0) line ->
   cstring (line ++ 0 :: drop (S (length line)) (outputBuffer s)) = line).
Proof.
  intros Hcons Hline Hlen. split.
  - unfold enterString. rewrite Hcons.
    rewrite enterString_loop_line by (exact Hline || lia). reflexivity.
  - apply cstring_app.
Qed.

Lemma enterString_reads_line_witness :
  exists s',
    enterString (initial_state ∅ (keys "C6" ++ 10 :: keys "x") []) = Ok (tt, s') /\
    console s' = keys "x" /\ cstring (outputBuffer s') = keys "C6".
Proof.
  destruct (enterString_reads_line
              (initial_state ∅ (keys "C6" ++ 10 :: keys "x") []) (keys "C6") (keys "x"))
    as [Hrun Hstr].
  - reflexivity.
  - apply (bool_decide_unpack _); vm_compute; exact I.
  - cbn. lia.
  - eexists. split; [exact Hrun|]. split; [reflexivity|].
    apply Hstr. apply (bool_decide_unpack _); vm_compute; exact I.
Defined.

Lemma enterString_loop_fills (line : list Z) :
  forall (i : nat) (buf : list Z),
    Forall (fun c => 0 <= c < 256 /\ c <> 10) line ->
    (i + length line <= length buf)%nat ->
    (forall rest c,
       (i + length line = length buf)%nat ->
       enterString_loop (line ++ c :: rest) i buf = Undefined) /\
    enterString_loop line i buf = Blocked.
Proof.
  induction line as [|c line IH]; intros i buf Hline Hlen.
  - split; [|reflexivity]. intros rest c Hfull. cbn [app length] in *.
    cbn [enterString_loop]. unfold store_buf.
    rewrite !decide_False by lia. destruct (_ =? 10); reflexivity.
  - apply Forall_cons in Hline as [[Hc Hnl] Hline]. cbn [length] in Hlen.
    destruct (IH (S i) (<[i := c]> buf) Hline) as [IH1 IH2];
      [rewrite length_insert; lia|].
    split.
    + intros rest d Hfull. cbn [length] in Hfull.
      cbn [app enterString_loop]. rewrite to_uchar_small by exact Hc.
      destruct (Z.eqb_spec c 10); [contradiction|].
      unfold store_buf. rewrite decide_True by lia.
      apply IH1. rewrite length_insert. lia.
    + cbn [enterString_loop]. rewrite to_uchar_small by exact Hc.
      destruct (Z.eqb_spec c 10); [contradiction|].
      unfold store_buf. rewrite decide_True by lia. exact IH2.
Qed.

(** X10: [enterString] has no bound on the line: when as many characters as
    the buffer holds are typed before the newline, the next character (the
    newline or any other) is stored past the end of [outputBuffer]; and as
    long as no newline is typed the call does not return. *)
Theorem enterString_overrun_or_wait (s : state) (line : list Z) :
  Forall (fun c => 0 <= c < 256 /\ c <> 10) line ->
  (length line <= length (outputBuffer s))%nat ->
  (forall c rest,
     length line = length (outputBuffer s) ->
     enterString (set_console (line ++ c :: rest) s) = Undefined) /\
  enterString (set_console line s) = Blocked.
Proof.
  intros Hline Hlen.
  destruct (enterString_loop_fills line 0 (outputBuffer s) Hline) as [H1 H2]; [lia|].
  split.
  - intros c rest Hfull. unfold enterString. cbn [console outputBuffer set_console].
    rewrite H1 by lia. reflexivity.
  - unfold enterString. cbn [console outputBuffer set_console].
    rewrite H2. reflexivity.
Qed.

Lemma enterString_overrun_or_wait_witness :
  enterString (set_console (keys "ABCDEFGHIJ" ++ 10 :: []) (initial_state ∅ [] []))
    = Undefined /\
  enterString (set_console (keys "A1") (initial_state ∅ [] [])) = Blocked.
Proof.
  split.
  - apply (enterString_overrun_or_wait (initial_state ∅ [] []) (keys "ABCDEFGHIJ"));
      [apply (bool_decide_unpack _); vm_compute; exact I | cbn; lia | reflexivity].
  - apply (enterString_overrun_or_wait (initial_state ∅ [] []) (keys "A1"));
      [apply (bool_decide_unpack _); vm_compute; exact I | cbn; lia].
Defined.


(** ** The link at its edges *)

Lemma sendString_loop_unterminated (chunk : list Z) :
  forall (i : nat) (s : state) (rest : list Z),
    drop i (outputBuffer s) = chunk ++ rest ->
    Forall (fun c => c <> 0) chunk ->
    exists s',
      sendString_loop (length chunk) i s = Ok (tt, s') /\
      sending_only s s' /\
      trace s' = trace s ++ flat_map send_events chunk.
Proof.
  induction chunk as [|c chunk IH]; intros i s rest Hdrop Hnz.
  - exists s. split; [reflexivity|]. split; [apply sending_only_refl|].
    cbn [flat_map]. rewrite app_nil_r. reflexivity.
  - cbn [app] in Hdrop. apply drop_cons_inv in Hdrop as [Hi Hdrop].
    apply Forall_cons in Hnz as [Hc Hnz].
    cbn [length sendString_loop]. unfold bind at 1, lift, load_buf. rewrite Hi.
    unfold bind at 1. rewrite sendChar_after_send.
    destruct (Z.eqb_spec c 0) as [?|_]; [contradiction|].
    destruct (IH (S i) (after_send c (send_events c) s) rest) as (s' & Hrun & Honly & Htrace);
      [exact Hdrop | exact Hnz |].
    exists s'. split; [exact Hrun|]. split.
    + eapply sending_only_trans; [|exact Honly].
      unfold sending_only, after_send. repeat split; reflexivity.
    + rewrite Htrace. unfold after_send. cbn [trace emit flat_map].
      change (trace (set_parity _ (set_sent _ s))) with (trace s).
      rewrite <- app_assoc. reflexivity.
Qed.

Lemma frame_of_zero_table :
  Forall (fun c => frame_of c = frame_of 0 -> c = 0) (seqZ 0 256).
Proof. apply (bool_decide_unpack _). vm_compute. exact I. Qed.

(** X11: when [outputBuffer] holds no terminator, [sendString] stops after
    [bufLen] characters: it sends one frame for each byte of the buffer, in
    order, none of them the frame of the terminator, and nothing more. *)
Theorem sendString_without_terminator (s : state) :
  length (outputBuffer s) = bufLen ->
  Forall (fun c => 0 < c < 256) (outputBuffer s) ->
  exists s',
    sendString s = Ok (tt, s') /\
    frames_between s s' = map frame_of (outputBuffer s) /\
    length (frames_between s s') = bufLen /\
    Forall (fun f => f <> frame_of 0) (frames_between s s') /\
    sending_only s s'.
Proof.
  intros Hlen Hbytes.
  destruct (sendString_loop_unterminated (outputBuffer s) 0 s [])
    as (s' & Hrun & Honly & Htrace).
  { rewrite app_nil_r. reflexivity. }
  { eapply Forall_impl; [exact Hbytes|]. cbn. intros c Hc. lia. }
  assert (Hframes : frames_between s s' = map frame_of (outputBuffer s)).
  { unfold frames_between. rewrite Htrace, frames_sent_app, drop_app_length.
    apply frames_sent_send_events. }
  exists s'. rewrite Hlen in Hrun.
  split; [exact Hrun|]. split; [exact Hframes|].
  split; [rewrite Hframes, length_map; exact Hlen|].
  split; [|exact Honly].
  rewrite Hframes. apply Forall_map. eapply Forall_impl; [exact Hbytes|].
  cbn. intros c Hc Heq.
  assert (c = 0); [|lia].
  apply (Forall_seqZ_elim _ 0 256 c frame_of_zero_table); [lia | exact Heq].
Qed.

Lemma sendString_without_terminator_witness :
  exists s',
    sendString (set_outputBuffer (keys "ABCDEFGHIJ") (initial_state ∅ [] [])) = Ok (tt, s') /\
    length (frames_between
              (set_outputBuffer (keys "ABCDEFGHIJ") (initial_state ∅ [] [])) s') = bufLen.
Proof.
  destruct (sendString_without_terminator
              (set_outputBuffer (keys "ABCDEFGHIJ") (initial_state ∅ [] [])))
    as (s' & H1 & _ & H2 & _).
  - reflexivity.
  - apply (bool_decide_unpack _); vm_compute; exact I.
  - exists s'. split; assumption.
Defined.

(** X12: at the first frame whose parity is wrong, [readString] returns 1.
    The bytes of the frames before it are in [inputBuffer], each frame
    including the bad one has been acknowledged with one pulse of
    [char_read], the message has been printed once, nothing has been put on
    [data_out], the frames behind the bad one are still on the link, and
    the boards, the counters and [outputBuffer] are untouched. *)
Theorem readString_stops_at_parity_error
    (s : state) (good : list Z) (bad : Z) (rest : list Z) :
  link_in s = good ++ bad :: rest ->
  Forall good_frame good ->
  parity_ok bad = false ->
  (length good <= length (inputBuffer s))%nat ->
  exists s',
    readString s = Ok (1, s') /\
    take (length good) (inputBuffer s') = map frame_data good /\
    trace s' = trace s ++ ack_pulses (length good)
                       ++ PrintParityError bad :: ack_pulse /\
    frames_between s s' = [] /\
    link_in s' = rest /\
    reception_only s s'.
Proof.
  intros Hlink Hgood Hbad Hlen.
  destruct (readString_parity_error s good bad rest Hlink Hgood Hbad Hlen)
    as (s' & Hrun & Honly & Htake & Hrest & Htrace & Hsent).
  exists s'. split; [exact Hrun|]. split; [exact Htake|].
  split; [exact Htrace|]. split; [exact Hsent|]. split; [exact Hrest | exact Honly].
Qed.

Lemma readString_stops_at_parity_error_witness :
  exists s',
    readString (initial_state ∅ [] (frame_of 65 :: 1 :: frame_of 0 :: [])) = Ok (1, s') /\
    link_in s' = [frame_of 0].
Proof.
  destruct (readString_stops_at_parity_error
              (initial_state ∅ [] (frame_of 65 :: 1 :: frame_of 0 :: []))
              [frame_of 65] 1 [frame_of 0])
    as (s' & H1 & _ & _ & _ & H2 & _).
  - reflexivity.
  - apply (bool_decide_unpack _); vm_compute; exact I.
  - reflexivity.
  - cbn. lia.
  - exists s'. split; assumption.
Defined.

(** X13: a parity error does not disturb what follows: the next call of
    [readString] receives the next string on the link, terminator included,
    and returns 0. *)
Theorem readString_recovers_after_parity_error
    (s : state) (bad : Z) (payload : list Z) (rest : list Z) :
  link_in s = bad :: map frame_of payload ++ frame_of 0 :: rest ->
  parity_ok bad = false ->
  Forall (fun c => 0 < c < 128) payload ->
  (length payload < length (inputBuffer s))%nat ->
  exists s1 s2,
    readString s = Ok (1, s1) /\
    readString s1 = Ok (0, s2) /\
    cstring (inputBuffer s2) = payload /\
    link_in s2 = rest.
Proof.
  intros Hlink Hbad Hpayload Hlen.
  exact (readString_after_parity_error s bad payload rest Hlink Hbad Hpayload Hlen).
Qed.

Lemma readString_recovers_after_parity_error_witness :
  exists s1 s2,
    readString (initial_state ∅ [] (1 :: map frame_of (keys "C6") ++ frame_of 0 :: []))
      = Ok (1, s1) /\
    readString s1 = Ok (0, s2) /\
    cstring (inputBuffer s2) = keys "C6".
Proof.
  destruct (readString_recovers_after_parity_error
              (initial_state ∅ [] (1 :: map frame_of (keys "C6") ++ frame_of 0 :: []))
              1 (keys "C6") [])
    as (s1 & s2 & H1 & H2 & H3 & _).
  - reflexivity.
  - reflexivity.
  - apply (bool_decide_unpack _); vm_compute; exact I.
  - cbn. lia.
  - exists s1, s2. repeat split; assumption.
Defined.

(** X14: [readString] has no bound on the string and no time-out: a run of
    accepted frames that ends without a terminator leaves the call waiting,
    and once [inputBuffer] is full the byte of the next accepted frame (a
    terminator included) is stored past its end. *)
Theorem readString_waits_or_overruns (s : state) (good : list Z) :
  link_in s = good ->
  Forall good_frame good ->
  (length good <= length (inputBuffer s))%nat ->
  readString s = Blocked /\
  (forall f rest,
     length good = length (inputBuffer s) -> parity_ok f = true ->
     readString (set_link_in (good ++ f :: rest) s) = Undefined).
Proof.
  intros Hlink Hgood Hlen. split.
  - unfold readString. rewrite Hlink.
    destruct (readString_loop_good good 0 s [] Hgood)
      as (s1 & Hrun & _); [cbn; lia|].
    rewrite app_nil_r in Hrun. rewrite Hrun. reflexivity.
  - intros f rest Hfull Hpar. unfold readString. cbn [link_in set_link_in].
    destruct (readString_loop_good good 0 (set_link_in (good ++ f :: rest) s)
                (f :: rest) Hgood)
      as (s1 & Hrun & Honly & _); [cbn; lia|].
    destruct Honly as (_&_&_&_&_&_&_&_&_&_&Hlen1).
    cbn [Nat.add inputBuffer set_link_in] in Hrun, Hlen1.
    rewrite Hrun, readString_loop_unfold, Hpar.
    unfold store_buf. rewrite decide_False by lia. reflexivity.
Qed.

Lemma readString_waits_or_overruns_witness :
  readString (initial_state ∅ [] (map frame_of (keys "C6"))) = Blocked.
Proof.
  destruct (readString_waits_or_overruns
              (initial_state ∅ [] (map frame_of (keys "C6"))) (map frame_of (keys "C6")))
    as [H _].
  - reflexivity.
  - apply (bool_decide_unpack _); vm_compute; exact I.
  - cbn. lia.
  - exact H.
Defined.

Lemma corrupted_frame_table :
  Forall (fun c => Forall (fun i => parity_ok (flip_bit (frame_of c) i) = false)
                          (seqZ 0 8))
         (seqZ 0 128).
Proof. apply (bool_decide_unpack _). vm_compute. exact I. Qed.

(** X15: the frame of a 7-bit character with any one of its eight bits
    inverted on the way never passes the parity check: [readString] stores
    nothing, acknowledges the frame and returns 1. *)
Theorem corrupted_frame_is_rejected (s : state) (c i : Z) (rest : list Z) :
  0 <= c < 128 -> 0 <= i < 8 ->
  link_in s = flip_bit (frame_of c) i :: rest ->
  parity_ok (flip_bit (frame_of c) i) = false /\
  exists s',
    readString s = Ok (1, s') /\
    inputBuffer s' = inputBuffer s /\
    link_in s' = rest /\
    trace s' = trace s ++ PrintParityError (flip_bit (frame_of c) i) :: ack_pulse.
Proof.
  intros Hc Hi Hlink.
  assert (Hbad : parity_ok (flip_bit (frame_of c) i) = false).
  { pose proof (Forall_seqZ_elim _ 0 128 c corrupted_frame_table ltac:(lia)) as Hrow.
    exact (Forall_seqZ_elim _ 0 8 i Hrow ltac:(lia)). }
  split; [exact Hbad|].
  unfold readString. rewrite Hlink, readString_loop_bad_frame by exact Hbad.
  eexists. split; [reflexivity|]. repeat split; reflexivity.
Qed.

Lemma corrupted_frame_is_rejected_witness :
  parity_ok (flip_bit (frame_of 67) 4) = false.
Proof.
  exact (proj1 (corrupted_frame_is_rejected
                  (initial_state ∅ [] [flip_bit (frame_of 67) 4]) 67 4 []
                  ltac:(lia) ltac:(lia) eq_refl)).
Defined.


(** ** The two prompts *)

Lemma read_orientation_valid (fuel : nat) (o nl : Z) (rest : list Z) (s : state) :
  o = 104 \/ o = 118 ->
  console s = o :: nl :: rest ->
  read_orientation (S fuel) s = Ok (o, set_console rest s).
Proof.
  intros Ho Hcons. cbn [read_orientation]. unfold bind, alt_getchar.
  rewrite Hcons. cbn [console set_console].
  assert (Hset : set_console rest (set_console (nl :: rest) s) = set_console rest s)
    by (apply state_eq; reflexivity).
  destruct Ho as [-> | ->]; cbn; rewrite Hset; reflexivity.
Qed.

(** X16: one round of the placement prompt, for a start cell typed as a
    letter 'A'..'H' and a digit '1'..'8' and an orientation 'h' or 'v', when
    the ship does not pass the right edge.  If every cell of the ship is in
    a row up to 8 and free on the ships board, the ship is placed: exactly
    its cells are added to the ships board and no other byte of the store
    changes.  Otherwise the message is printed, nothing is stored, and the
    prompt starts again on what is typed next. *)
Theorem place_ship_round
    (fuel : nat) (i row col o nl1 nl2 : Z) (rest : list Z) (s : state) :
  console s = (64 + row) :: (48 + col) :: nl1 :: o :: nl2 :: rest ->
  1 <= row <= 8 -> 1 <= col <= 8 -> 1 <= i <= 8 ->
  o = 104 \/ o = 118 ->
  (o = 104 -> col + i - 1 <= 8) ->
  let fits :=
    forall j, 0 <= j < i ->
      snd (ship_cell o col row j) <= 8 /\
      cell (sram s) boardBase (fst (ship_cell o col row j))
                              (snd (ship_cell o col row j)) = false in
  (fits ->
   exists mem',
     place_ship (S fuel) i s = Ok (tt, set_sram mem' (set_console rest s)) /\
     (forall a, ~ (boardBase <= a < boardBase + 8) -> mem' !! a = sram s !! a) /\
     (forall cx cy, 1 <= cx <= 8 -> 1 <= cy <= 8 ->
        (cell mem' boardBase cx cy = true <->
         cell (sram s) boardBase cx cy = true \/
         exists j, 0 <= j < i /\ ship_cell o col row j = (cx, cy)))) /\
  (~ fits ->
   place_ship (S fuel) i s =
     place_ship fuel i (emit [PrintOffMapOrTaken] (set_console rest s))).
Proof.
  intros Hcons Hrow Hcol Hi Ho Hright fits.
  assert (Hcells : forall j, 0 <= j < Z.of_nat (Z.to_nat i) ->
            1 <= fst (ship_cell o col row j) <= 8 /\
            1 <= snd (ship_cell o col row j) <= 200).
  { intros j Hj. unfold ship_cell.
    destruct Ho as [-> | ->]; cbn [Z.eqb fst snd Pos.eqb]; [|lia].
    specialize (Hright eq_refl). lia. }
  set (s0 := set_console rest s).
  assert (Hprefix :
            place_ship (S fuel) i s =
              (let! check := check_cells o col row (Z.to_nat i) in
               if check =? 0 then mark_cells o col row (Z.to_nat i)
               else place_ship fuel i) s0).
  { cbn [place_ship]. unfold bind at 1, alt_getchar. rewrite Hcons.
    unfold bind at 1. cbn [console set_console].
    unfold bind at 1. cbn [console set_console].
    rewrite charToInt_letter, charToInt_digit by lia.
    rewrite !to_uchar_small by lia.
    unfold bind at 1.
    erewrite (read_orientation_valid fuel o nl2 rest) by (exact Ho || reflexivity).
    assert (Hs0 : set_console rest
                    (set_console (o :: nl2 :: rest)
                       (set_console (nl1 :: o :: nl2 :: rest)
                          (set_console (48 + col :: nl1 :: o :: nl2 :: rest) s))) = s0)
      by (apply state_eq; reflexivity).
    rewrite Hs0. reflexivity. }
  destruct (check_cells_spec o col row (Z.to_nat i) s0 Hcells) as (c & Hrun & Hiff).
  rewrite Z2Nat.id in Hiff by lia. change (sram s0) with (sram s) in Hiff.
  fold fits in Hiff.
  split.
  - intros Hfits. apply Hiff in Hfits. subst c. cbn [Z.eqb] in Hrun.
    destruct (mark_cells_spec o col row (Z.to_nat i) s0) as (mem' & Hmark & Hframe & Hcell).
    { intros j Hj. destruct (Hcells j Hj) as [Hc [Hr _]].
      rewrite Z2Nat.id in Hj by lia.
      destruct (proj1 Hiff eq_refl j Hj) as [Hr8 _]. lia. }
    exists mem'. split; [|split].
    + rewrite Hprefix. erewrite bind_of_Ok by exact Hrun. cbn [Z.eqb].
      rewrite Hmark.
      assert (Hs : set_sram mem' s0 = set_sram mem' (set_console rest s))
        by reflexivity.
      rewrite Hs. reflexivity.
    + exact Hframe.
    + intros cx cy Hcx Hcy. rewrite Hcell by assumption.
      rewrite Z2Nat.id by lia. reflexivity.
  - intros Hnot. rewrite Hprefix. erewrite bind_of_Ok by exact Hrun.
    destruct (Z.eqb_spec c 0) as [Hc|Hc]; [exfalso; apply Hnot, Hiff, Hc|].
    reflexivity.
Qed.

Lemma place_ship_round_witness :
  exists mem',
    place_ship 1 4 (initial_state ∅ (keys "H1" ++ 10 :: keys "h" ++ 10 :: []) [])
      = Ok (tt, set_sram mem' (set_console [] (initial_state ∅ [] []))) /\
    cell mem' boardBase 4 8 = true.
Proof.
  destruct (place_ship_round 0 4 8 1 104 10 10 []
              (initial_state ∅ (keys "H1" ++ 10 :: keys "h" ++ 10 :: []) []))
    as [Hfit _]; try reflexivity; try lia.
  destruct Hfit as (mem' & Hrun & _ & Hcell).
  - intros j Hj. split; [cbn; lia|].
    unfold cell, byte_at. cbn [sram initial_state]. rewrite lookup_empty.
    apply Z.testbit_0_l.
  - exists mem'. split; [exact Hrun|].
    apply Hcell; [lia | lia |]. right. exists 3. split; [lia | reflexivity].
Defined.


(** X17: one round of the firing prompt, for a line of a letter 'A'..'H'
    and a digit '1'..'8'.  The line is stored in [outputBuffer] and decoded
    to the row and the column; when the cell has not been fired at the
    prompt returns with that shot, otherwise it starts again on the next
    line.  The store is only read. *)
Theorem fire_prompt_round (fuel : nat) (row col : Z) (rest : list Z) (s : state) :
  console s = (64 + row) :: (48 + col) :: 10 :: rest ->
  1 <= row <= 8 -> 1 <= col <= 8 ->
  (3 <= length (outputBuffer s))%nat ->
  let s' :=
    set_yourShot col row
      (set_console rest
         (set_outputBuffer
            ([64 + row; 48 + col] ++ 0 :: drop 3 (outputBuffer s)) s)) in
  fire_prompt (S fuel) s =
    if cell (sram s) shotsBase col row then fire_prompt fuel s' else Ok (tt, s').
Proof.
  intros Hcons Hrow Hcol Hlen s'.
  cbn [fire_prompt]. unfold bind at 1, enterString. rewrite Hcons.
  change ((64 + row) :: (48 + col) :: 10 :: rest)
    with ([64 + row; 48 + col] ++ 10 :: rest).
  rewrite (enterString_loop_line [64 + row; 48 + col] 0 (outputBuffer s) rest);
    [| repeat (apply List.Forall_cons; [lia|]); apply List.Forall_nil
     | cbn [length]; lia].
  rewrite take_0. cbn [length Nat.add app].
  unfold bind at 1, translateOutputBuffer.
  cbn [outputBuffer set_console set_outputBuffer load_buf lookup list_lookup].
  rewrite charToInt_letter, charToInt_digit by lia.
  unfold bind at 1, gets. unfold bind at 1.
  cbn [yourShotX yourShotY set_yourShot].
  erewrite bind_of_Ok
    by (apply checkMove_or_checkIndex_column_in_board; unfold shotsBase; lia).
  change (sram (set_yourShot col row (set_console rest (set_outputBuffer _ s))))
    with (sram s).
  destruct (cell (sram s) shotsBase col row); cbn [Z.eqb]; [reflexivity|].
  destruct (Z.leb_spec row 8); [reflexivity | lia].
Qed.

Lemma fire_prompt_round_witness :
  exists s',
    fire_prompt 1 (initial_state ∅ (keys "C6" ++ [10]) []) = Ok (tt, s') /\
    yourShotX s' = 6 /\ yourShotY s' = 3.
Proof.
  eexists. split.
  - exact (fire_prompt_round 0 3 6 [] (initial_state ∅ (keys "C6" ++ [10]) [])
             eq_refl ltac:(lia) ltac:(lia) ltac:(cbn; lia)).
  - split; reflexivity.
Defined.

(** ** A turn played inside the board *)

(** X18: a local turn returns with at most one more hit for the player and
    the opponent's count unchanged; when its shot has column and row in
    1..8, the shot is added to the shots board, the hits board gains at most
    that same cell and loses none, and no other byte of the store changes. *)
Theorem local_turn_effect (fuel : nat) (s s' : state) :
  local_turn fuel s = Ok (tt, s') ->
  (enemyHits s' = enemyHits s /\
   (yourHits s' = yourHits s \/ yourHits s' = to_uint (yourHits s + 1))) /\
  (1 <= yourShotX s' <= 8 -> 1 <= yourShotY s' <= 8 ->
   (forall a, a <> shotsBase + yourShotY s' - 1 ->
              a <> hitsBase + yourShotY s' - 1 -> sram s' !! a = sram s !! a) /\
   (forall cx cy, 1 <= cx <= 8 -> 1 <= cy <= 8 ->
      (cell (sram s') shotsBase cx cy = true <->
       cell (sram s) shotsBase cx cy = true \/
       (cx = yourShotX s' /\ cy = yourShotY s'))) /\
   (forall cx cy, 1 <= cx <= 8 -> 1 <= cy <= 8 ->
      cell (sram s) hitsBase cx cy = true -> cell (sram s') hitsBase cx cy = true) /\
   (forall cx cy, 1 <= cx <= 8 -> 1 <= cy <= 8 ->
      cell (sram s') hitsBase cx cy = true ->
      cell (sram s) hitsBase cx cy = true \/
      (cx = yourShotX s' /\ cy = yourShotY s'))).
Proof.
  intros H. split.
  - pose proof H as Hrun. unfold local_turn in H.
    bind_inv H as [] s1 H1. apply keeps_fire_prompt in H1 as [Y1 E1].
    bind_inv H as [] s2 H2. apply keeps_sendString in H2 as [Y2 E2].
    bind_inv H as r s3 H3. apply keeps_readString in H3 as [Y3 E3].
    bind_inv H as [] s4 H4. apply keeps_updateEnemyBoard in H4 as [Y4 E4].
    bind_inv H as [] s5 H5. apply keeps_translateInputBuffer in H5 as [Y5 E5].
    bind_inv H as c0 s6 H6. unfold lift in H6.
    destruct (load_buf 0 _); try discriminate. injection H6 as _ <-.
    destruct (charToInt c0 =? 0).
    + injection H as <-. split; [congruence | left; congruence].
    + bind_inv H as [] s7 H7. apply keeps_updateEnemyBoard in H7 as [Y7 E7].
      injection H as <-. cbn [enemyHits yourHits set_yourHits].
      split; [congruence | right; congruence].
  - intros Hx Hy. exact (local_turn_boards fuel s s' H Hx Hy).
Qed.




(** ** What the print-outs show *)

Lemma bit_of_shift (byte k : Z) :
  0 <= k -> to_int (Z.land (Z.shiftr byte k) 1) = Z.b2z (Z.testbit byte k).
Proof.
  intros Hk. rewrite land_1_b2z, Z.shiftr_spec, Z.add_0_l by lia.
  destruct (Z.testbit byte k); reflexivity.
Qed.

Lemma printYourBoard_bits_marks (mem : gmap Z Z) (y : Z) :
  printYourBoard_bits (byte_at mem (boardBase + y - 1)) 8 =
    flat_map (fun x => [fleet_mark mem x y; 32]) (seqZ 1 8).
Proof.
  cbn [printYourBoard_bits]. rewrite !bit_of_shift by lia.
  unfold fleet_mark, cell, BOARD_WIDTH.
  change (seqZ 1 8) with [1; 2; 3; 4; 5; 6; 7; 8]. cbn [flat_map app].
  change (Z.of_nat 7) with (8 - 1). change (Z.of_nat 6) with (8 - 2).
  change (Z.of_nat 5) with (8 - 3). change (Z.of_nat 4) with (8 - 4).
  change (Z.of_nat 3) with (8 - 5). change (Z.of_nat 2) with (8 - 6).
  change (Z.of_nat 1) with (8 - 7). change (Z.of_nat 0) with (8 - 8).
  repeat match goal with
         | |- context [Z.testbit ?b ?k] => destruct (Z.testbit b k)
         end; reflexivity.
Qed.

Lemma seqZ_succ_head (y : Z) (n : nat) :
  seqZ y (Z.of_nat (S n)) = y :: seqZ (y + 1) (Z.of_nat n).
Proof.
  replace (Z.of_nat (S n)) with (Z.succ (Z.of_nat n)) by lia.
  rewrite seqZ_cons by lia.
  replace (Z.succ y) with (y + 1) by lia.
  replace (Z.pred (Z.succ (Z.of_nat n))) with (Z.of_nat n) by lia.
  reflexivity.
Qed.

Lemma printYourBoard_rows_grid (n : nat) :
  forall (y : Z) (s : state),
    1 <= y -> y + Z.of_nat n <= 9 ->
    printYourBoard_rows n (boardBase + y - 1) s =
      Ok (flat_map (fun y' => grid_row (fun x => fleet_mark (sram s) x y') y')
                   (seqZ y (Z.of_nat n)), s).
Proof.
  induction n as [|n IH]; intros y s Hy Hlim; [reflexivity|].
  cbn [printYourBoard_rows]. unfold bind at 1.
  rewrite readSRAM_byte_at by (unfold boardBase; lia).
  unfold bind at 1.
  replace (boardBase + y - 1 + 1) with (boardBase + (y + 1) - 1) by lia.
  rewrite IH by lia. unfold ret.
  rewrite printYourBoard_bits_marks.
  rewrite seqZ_succ_head. cbn [flat_map]. unfold grid_row.
  replace (to_uchar (to_uint (65 + (boardBase + y - 1) - boardBase))) with (64 + y).
  2: { unfold boardBase. rewrite to_uint_small by lia. rewrite to_uchar_small; lia. }
  rewrite <- !app_assoc. reflexivity.
Qed.

(** X23: [printYourBoard] writes its two header lines and then the grid of
    the ships board: row by row from 'A' to 'H', column 1 first, 'B' where
    the cell holds a ship and '-' where it does not; the state is not
    changed. *)
Theorem printYourBoard_shows_fleet (s : state) :
  printYourBoard s =
    Ok (keys "Your fleet..." ++ [10] ++
        keys "  1 2 3 4 5 6 7 8" ++ [10] ++
        grid (fleet_mark (sram s)) ++ [10], s).
Proof.
  unfold printYourBoard, bind.
  change boardBase with (boardBase + 1 - 1) at 1.
  rewrite printYourBoard_rows_grid by lia. reflexivity.
Qed.

Lemma glyph_of_bits (bs bh : bool) :
  (if negb (Z.land (Z.b2z bs) (Z.b2z bh) =? 0) then 88
   else if negb (Z.b2z bs =? 0) then 79 else 45) =
  (if bs && bh then 88 else if bs then 79 else 45).
Proof. destruct bs, bh; reflexivity. Qed.

Lemma printEnemyBoard_bits_marks (mem : gmap Z Z) (y : Z) :
  printEnemyBoard_bits (byte_at mem (shotsBase + y - 1))
                       (byte_at mem (hitsBase + y - 1)) 8 =
    flat_map (fun x => [enemy_mark mem x y; 32]) (seqZ 1 8).
Proof.
  cbn [printEnemyBoard_bits]. rewrite !bit_of_shift by lia.
  rewrite !glyph_of_bits.
  unfold enemy_mark, cell, BOARD_WIDTH.
  change (seqZ 1 8) with [1; 2; 3; 4; 5; 6; 7; 8]. cbn [flat_map app].
  reflexivity.
Qed.

Lemma printEnemyBoard_rows_grid (n : nat) :
  forall (y : Z) (s : state),
    1 <= y -> y + Z.of_nat n <= 9 ->
    printEnemyBoard_rows n (shotsBase + y - 1) (hitsBase + y - 1) s =
      Ok (flat_map (fun y' => grid_row (fun x => enemy_mark (sram s) x y') y')
                   (seqZ y (Z.of_nat n)), s).
Proof.
  induction n as [|n IH]; intros y s Hy Hlim; [reflexivity|].
  cbn [printEnemyBoard_rows]. unfold bind at 1.
  rewrite readSRAM_byte_at by (unfold shotsBase; lia).
  unfold bind at 1.
  rewrite readSRAM_byte_at by (unfold hitsBase; lia).
  unfold bind at 1.
  replace (shotsBase + y - 1 + 1) with (shotsBase + (y + 1) - 1) by lia.
  replace (hitsBase + y - 1 + 1) with (hitsBase + (y + 1) - 1) by lia.
  rewrite IH by lia. unfold ret.
  rewrite printEnemyBoard_bits_marks.
  rewrite seqZ_succ_head. cbn [flat_map]. unfold grid_row.
  replace (to_uchar (to_uint (65 + (shotsBase + y - 1) - shotsBase))) with (64 + y).
  2: { unfold shotsBase. rewrite to_uint_small by lia. rewrite to_uchar_small; lia. }
  rewrite <- !app_assoc. reflexivity.
Qed.

(** X24: [printEnemyBoard] writes its two header lines and then the grid of
    the opponent's waters: 'X' where the cell is on the shots board and on
    the hits board, 'O' where it is on the shots board only, '-' everywhere
    else, also where only the hits board has the cell; the state is not
    changed. *)
Theorem printEnemyBoard_shows_shots (s : state) :
  printEnemyBoard s =
    Ok (keys "Current assessment of enemy territory..." ++ [10] ++
        keys "  1 2 3 4 5 6 7 8" ++ [10] ++
        grid (enemy_mark (sram s)) ++ [10], s).
Proof.
  unfold printEnemyBoard, bind.
  change shotsBase with (shotsBase + 1 - 1) at 1.
  change hitsBase with (hitsBase + 1 - 1) at 1.
  rewrite printEnemyBoard_rows_grid by lia. reflexivity.
Qed.



Lemma local_turn_effect_witness :
  exists s',
    local_turn 1 (initial_state ∅ (line "C6") (message "1")) = Ok (tt, s') /\
    yourShotX s' = 6 /\ yourShotY s' = 3 /\
    (yourHits s' = 0 \/ yourHits s' = to_uint (0 + 1)) /\
    (cell (sram s') shotsBase 6 3 = true <->
     cell ∅ shotsBase 6 3 = true \/ (6 = yourShotX s' /\ 3 = yourShotY s')).
Proof.
  eexists.
  match goal with
  | |- ?A /\ ?B /\ ?C /\ _ =>
      assert (HA : A) by run; assert (HB : B) by run; assert (HC : C) by run
  end.
  split; [exact HA|]. split; [exact HB|]. split; [exact HC|].
  destruct (local_turn_effect _ _ _ HA) as [[_ Hhits] Hboards].
  split; [exact Hhits|].
  destruct Hboards as (_ & Hshots & _); [rewrite HB; lia | rewrite HC; lia |].
  apply Hshots; lia.
Defined.

(** ** The whole program *)

(** X22: when [main] returns it returns 0, and the last thing it does is
    print the verdict: the win, with the player's count at [totalHits], or
    the loss, with the opponent's count there and the player's below it. *)
Theorem main_ends_with_report (fuel : nat) (mem : gmap Z Z)
    (typed arriving : list Z) (r : Z) (s' : state) :
  main fuel (initial_state mem typed arriving) = Ok (r, s') ->
  r = 0 /\
  ((last (trace s') = Some PrintYouWin /\ yourHits s' = totalHits /\
    0 <= enemyHits s' <= totalHits) \/
   (last (trace s') = Some PrintYouLose /\ enemyHits s' = totalHits /\
    0 <= yourHits s' < totalHits)).
Proof.
  intros H. apply main_returns in H as (-> & s & -> & Hend & Hy & He).
  split; [reflexivity|].
  cbn [trace emit yourHits enemyHits]. rewrite last_snoc.
  destruct (Z.eq_dec (yourHits s) totalHits) as [Hwin|Hlose].
  - left. split; [f_equal; apply report_win, Hwin|]. split; assumption.
  - right. split; [f_equal; apply report_lose, Hlose|].
    destruct Hend as [Hwin|Hover]; [contradiction|]. split; [exact Hover | lia].
Qed.

Lemma main_ends_with_report_witness :
  exists s',
    main 20 (initial_state ∅ won_game_typed won_game_arriving) = Ok (0, s') /\
    ((last (trace s') = Some PrintYouWin /\ yourHits s' = totalHits /\
      0 <= enemyHits s' <= totalHits) \/
     (last (trace s') = Some PrintYouLose /\ enemyHits s' = totalHits /\
      0 <= yourHits s' < totalHits)).
Proof.
  eexists.
  match goal with
  | |- ?A /\ _ => assert (HA : A) by run
  end.
  split; [exact HA|].
  exact (proj2 (main_ends_with_report _ _ _ _ _ _ HA)).
Defined.

(** ** A coordinate from one console to the other board *)

Lemma cstring_two (buf : list Z) (c0 c1 : Z) :
  cstring buf = [c0; c1] -> buf !! 0%nat = Some c0 /\ buf !! 1%nat = Some c1.
Proof.
  destruct buf as [|b0 [|b1 buf]]; cbn [cstring].
  - discriminate.
  - destruct (b0 =? 0); discriminate.
  - destruct (b0 =? 0); [discriminate|]. destruct (b1 =? 0); [discriminate|].
    intros H. injection H as -> -> _. split; reflexivity.
Qed.

(** X26: a line of a letter and a digit typed at one console, stored by
    [enterString], decoded by [translateOutputBuffer] and sent by
    [sendString], arrives over a fault-free link as three frames;
    [readString] accepts them and [translateInputBuffer] decodes the same
    row and column on the other side. *)
Theorem typed_shot_reaches_peer (row col : Z) (rest : list Z) (a b : state) :
  console a = (64 + row) :: (48 + col) :: 10 :: rest ->
  1 <= row <= 26 -> 0 <= col <= 9 ->
  length (outputBuffer a) = bufLen ->
  length (inputBuffer b) = bufLen ->
  exists a' b',
    (let! _ := enterString in
     let! _ := translateOutputBuffer in sendString) a = Ok (tt, a') /\
    frames_between a a' = map frame_of [64 + row; 48 + col; 0] /\
    (let! _ := readString in translateInputBuffer)
      (set_link_in (frames_between a a') b) = Ok (tt, b') /\
    yourShotX a' = col /\ yourShotY a' = row /\
    theirShotX b' = col /\ theirShotY b' = row /\
    console a' = rest /\ link_in b' = [].
Proof.
  intros Hcons Hrow Hcol Hla Hlb. unfold bufLen in Hla, Hlb.
  (* the sending side *)
  unfold bind at 1, enterString. rewrite Hcons.
  change ((64 + row) :: (48 + col) :: 10 :: rest)
    with ([64 + row; 48 + col] ++ 10 :: rest).
  rewrite (enterString_loop_line [64 + row; 48 + col] 0 (outputBuffer a) rest);
    [| repeat (apply List.Forall_cons; [lia|]); apply List.Forall_nil
     | cbn [length]; lia].
  rewrite take_0. cbn [length Nat.add app].
  unfold bind at 1, translateOutputBuffer.
  cbn [outputBuffer set_console set_outputBuffer load_buf lookup list_lookup].
  rewrite charToInt_letter, charToInt_digit by lia.
  set (a1 := set_yourShot col row _).
  unfold sendString.
  rewrite (sendString_loop_sends [64 + row; 48 + col] bufLen 0 a1
             (drop 3 (outputBuffer a)));
    [| reflexivity
     | repeat (apply List.Forall_cons; [lia|]); apply List.Forall_nil
     | cbn; unfold bufLen; lia].
  set (a' := after_send 0 _ a1).
  assert (Hframes : frames_between a a' = map frame_of [64 + row; 48 + col; 0]).
  { change (frames_between a a') with (frames_between a1 a').
    unfold a'. rewrite frames_between_after_send.
    apply (frames_sent_send_events [64 + row; 48 + col; 0]). }
  (* the receiving side *)
  destruct (good_frames_of_payload [64 + row; 48 + col]) as [Hgood Hdata];
    [repeat (apply List.Forall_cons; [lia|]); apply List.Forall_nil|].
  destruct (frame_of_decodes 0) as [Hpar0 Hdat0]; [lia|].
  destruct (readString_receives (set_link_in (frames_between a a') b)
              (map frame_of [64 + row; 48 + col]) (frame_of 0) [])
    as (b1 & Hrun & _ & Hstr & _ & Hlink & _);
    [rewrite Hframes; reflexivity | exact Hgood | exact Hpar0 | exact Hdat0
     | cbn; lia |].
  rewrite Hdata in Hstr. apply cstring_two in Hstr as [H0 H1].
  exists a', (set_theirShot col row b1).
  split; [reflexivity|]. split; [exact Hframes|].
  split.
  { unfold bind. rewrite Hrun. unfold translateInputBuffer, load_buf.
    rewrite H0, H1, charToInt_letter, charToInt_digit by lia. reflexivity. }
  repeat split; try reflexivity. exact Hlink.
Qed.

Lemma typed_shot_reaches_peer_witness :
  exists a' b',
    (let! _ := enterString in
     let! _ := translateOutputBuffer in sendString)
      (initial_state ∅ (line "C6") []) = Ok (tt, a') /\
    (let! _ := readString in translateInputBuffer)
      (set_link_in (frames_between (initial_state ∅ (line "C6") []) a')
         (initial_state ∅ [] [])) = Ok (tt, b') /\
    theirShotX b' = 6 /\ theirShotY b' = 3.
Proof.
  destruct (typed_shot_reaches_peer 3 6 []
              (initial_state ∅ (line "C6") []) (initial_state ∅ [] []))
    as (a' & b' & Ha & _ & Hb & _ & _ & HX & HY & _);
    [reflexivity | lia | lia | reflexivity | reflexivity |].
  exists a', b'. repeat split; assumption.
Defined.

Lemma printInput_loop_spec (buf : list Z) :
  printInput_loop buf =
    if decide (0 ∈ buf) then Ok (cstring buf ++ [10]) else Undefined.
Proof.
  induction buf as [|c rest IH]; cbn [printInput_loop cstring].
  - destruct (decide (0 ∈ [])) as [Hin|_]; [|reflexivity].
    apply elem_of_nil in Hin. contradiction.
  - destruct (Z.eqb_spec c 0) as [->|Hc].
    + destruct (decide (0 ∈ 0 :: rest)) as [_|Hout]; [reflexivity|].
      exfalso. apply Hout. left.
    + rewrite IH.
      destruct (decide (0 ∈ rest)) as [Hin|Hout];
        destruct (decide (0 ∈ c :: rest)) as [Hin'|Hout']; try reflexivity.
      * exfalso. apply Hout'. right. exact Hin.
      * exfalso. apply elem_of_cons in Hin' as [Heq|Hin']; [lia | contradiction].
Qed.

(** X25: [printInput] prints the string of [inputBuffer], the bytes before
    its first terminator, and a newline, and changes nothing; with no
    terminator anywhere in the buffer it reads past its end. *)
Theorem printInput_prints_string (s : state) :
  printInput s =
    if decide (0 ∈ inputBuffer s)
    then Ok (cstring (inputBuffer s) ++ [10], s) else Undefined.
Proof.
  unfold printInput. rewrite printInput_loop_spec.
  destruct (decide (0 ∈ inputBuffer s)); reflexivity.
Qed.


(** ** The frame of one character *)

Lemma frame_layout_table :
  Forall (fun c => frame_of c = 2 * (c mod 128) + computeParity c /\
                   frame_data (frame_of c) = c mod 128 /\
                   parity_ok (frame_of c) = negb (Z.testbit c 7))
         (seqZ 0 256).
Proof. apply (bool_decide_unpack _). vm_compute. exact I. Qed.

(** X21: [sendChar] writes one frame and strobes [load] and [trans_en]
    once.  The frame carries the low seven bits of the character above a
    parity bit computed over all eight, so the receiver's data is the
    character without its top bit, and its parity check passes exactly when
    that top bit is clear. *)
Theorem sendChar_frame (c : Z) (s : state) :
  0 <= c < 256 ->
  exists s',
    sendChar c s = Ok (tt, s') /\
    sent s' = 2 * (c mod 128) + computeParity c /\
    parity s' = computeParity c /\
    trace s' = trace s ++ [WriteDataOut (sent s'); WriteLoad 1; WriteTransEn 1;
                           WriteLoad 0; WriteTransEn 0] /\
    frame_data (sent s') = c mod 128 /\
    parity_ok (sent s') = negb (Z.testbit c 7) /\
    sending_only s s'.
Proof.
  intros Hc.
  destruct (Forall_seqZ_elim _ 0 256 c frame_layout_table ltac:(lia))
    as (Hframe & Hdata & Hpar).
  rewrite sendChar_after_send. eexists. split; [reflexivity|].
  unfold after_send, send_events.
  cbn [sent parity trace emit set_parity set_sent].
  assert (Hchar : to_uchar (to_char c) = c).
  { clear -Hc. apply (Forall_seqZ_elim (fun c => to_uchar (to_char c) = c) 0 256);
      [apply (bool_decide_unpack _); vm_compute; exact I | lia]. }
  rewrite Hchar.
  split; [exact Hframe|]. split; [reflexivity|]. split; [reflexivity|].
  split; [exact Hdata|]. split; [exact Hpar|].
  repeat split; reflexivity.
Qed.

Lemma sendChar_frame_witness :
  exists s',
    sendChar 200 (initial_state ∅ [] []) = Ok (tt, s') /\
    sent s' = 2 * (200 mod 128) + computeParity 200 /\
    parity_ok (sent s') = negb (Z.testbit 200 7).
Proof.
  destruct (sendChar_frame 200 (initial_state ∅ [] []) ltac:(lia))
    as (s' & Hrun & Hsent & _ & _ & _ & Hpar & _).
  exists s'. split; [exact Hrun|]. split; [exact Hsent | exact Hpar].
Defined.

(** ** A turn returns when what it waits for arrives *)







